(** * A shallow embedding of the SvelteKit AWS adapter (juspay/sveltekit-aws-adapter)

    The deployment pipeline of [src/src/index.ts] and [src/dist/aws.js] is
    modelled as a program over external calls.  Every call the code makes to a
    library, to the file system, to the SvelteKit builder or to an AWS client
    is a request [req]; its answer has the type [resp_ty r] or is a thrown
    error.  A program [prog A] is a tree of such calls; [run] executes it
    against an environment [env] (the outside world, which may answer every
    call as it likes, depending on the calls made so far) and records the
    trace of calls and answers.  The configuration merge of [adapt]
    ([deepMerge] over the module-level [defaultConfig]) is modelled on an
    explicit heap of JavaScript objects, so that its in-place mutation and
    aliasing are visible. *)

From Stdlib Require Import String Ascii List Bool ZArith Lia.
Import ListNotations.
Open Scope string_scope.
Open Scope list_scope.

(** String concatenation, the [+] and template literals of the code. *)
Infix "+++" := String.append (at level 60, right associativity).

(* ------------------------------------------------------------------ *)
(** ** AWS SDK data shapes used by the code *)

(** A rendered JavaScript error ([String(error)]). *)
Definition err := string.

Record LambdaFunctionAssociation := {
  EventType : string;
  LambdaFunctionARN : string;
  IncludeBody : option bool
}.

Record LambdaFunctionAssociations := {
  Quantity : nat;
  Items : option (list LambdaFunctionAssociation)
}.

Record DefaultCacheBehavior := {
  TargetOriginId : string;
  ViewerProtocolPolicy : string;
  LambdaFunctionAssociations_ : option LambdaFunctionAssociations
}.

Record DistributionConfig := {
  CallerReference : string;
  Comment : string;
  Enabled : bool;
  DefaultCacheBehavior_ : option DefaultCacheBehavior
}.

(** Output of [GetDistributionConfigCommand]. *)
Record GetDistributionConfigResult := {
  DistributionConfig_ : option DistributionConfig;
  ETag : option string
}.

(** Input of [UpdateDistributionCommand]. *)
Record UpdateDistributionRequest := {
  Id : string;
  UpdatedConfig : DistributionConfig;
  IfMatch : option string
}.

(** Output of [GetFunctionConfigurationCommand]. *)
Record FunctionConfiguration := { FunctionArn : option string }.

(** Input of [PutObjectCommand]; [Body] is the path the read stream reads. *)
Record PutObjectRequest := {
  Bucket : string;
  Key : string;
  Body : string;
  ContentType : string
}.

(** Input of [CreateInvalidationCommand]. *)
Record CreateInvalidationRequest := {
  DistributionId : string;
  PathsQuantity : nat;
  PathsItems : list string;
  InvalidationCallerReference : string
}.

(** Output of [CreateInvalidationCommand]: the id of [result.Invalidation]. *)
Record CreateInvalidationResult := { Invalidation : option string }.

(* ------------------------------------------------------------------ *)
(** ** External calls *)

Inductive req : Type :=
  (* console output *)
  | ConsoleLog (msg : string)
  | ConsoleError (msg : string)
  (* SvelteKit builder *)
  | BuilderRimraf (dir : string)
  | BuilderLogMinor (msg : string)
  | BuilderWriteClient (dir : string)
  | BuilderWritePrerendered (dir : string)
  | BuilderWriteServer (dir : string)
  | BuilderCopy (src dst : string)
  (* node:fs, fs/promises and esbuild *)
  | WriteFileSync (path content : string)
  | Rm (path : string)
  | EsBuild (entry outdir : string)
  | ExistsSync (path : string)
  | Cp (src dst : string)
  | ReadFileSync (path : string)
  | SetTimeout (ms : nat)
  | DateNowISO
  (* archiver: glob [source] (ignoring [ignore]) into a zip written to [out];
     answers when the output stream closes, fails on an archive error *)
  | ArchiveDirectory (source out : string) (ignore : list string)
  (* AWS SDK calls, each with the region of the client that sends it *)
  | PutObject (region : string) (p : PutObjectRequest)
  | UpdateFunctionCode (region functionName zipFile : string)
  | PublishVersion (region functionName : string)
  | GetDistributionConfig (region distributionId : string)
  | GetFunctionConfiguration (region functionName : string)
  | UpdateDistribution (region : string) (u : UpdateDistributionRequest)
  | CreateInvalidation (region : string) (c : CreateInvalidationRequest).

(** The type of a successful answer to each call. *)
Definition resp_ty (r : req) : Set :=
  match r with
  | BuilderWritePrerendered _ => list string
  | ExistsSync _ => bool
  | ReadFileSync _ => string
  | DateNowISO => string
  | PublishVersion _ _ => option string
  | GetDistributionConfig _ _ => GetDistributionConfigResult
  | GetFunctionConfiguration _ _ => FunctionConfiguration
  | CreateInvalidation _ _ => CreateInvalidationResult
  | _ => unit
  end.

(** A trace event: a call and the answer it received. *)
Definition event := { r : req & (err + resp_ty r)%type }.
Definition Ev (r : req) (x : err + resp_ty r) : event := existT _ r x.
Definition trace := list event.

(** The outside world: it answers each call, knowing the calls so far. *)
Definition env := forall r : req, trace -> (err + resp_ty r)%type.

(* ------------------------------------------------------------------ *)
(** ** Programs over external calls *)

Inductive prog (A : Type) : Type :=
  | Ret (a : A)
  | Throw (e : err)
  | Op (r : req) (k : (err + resp_ty r)%type -> prog A).
Arguments Ret {A} a.
Arguments Throw {A} e.
Arguments Op {A} r k.

Fixpoint bind {A B} (p : prog A) (f : A -> prog B) : prog B :=
  match p with
  | Ret a => f a
  | Throw e => Throw e
  | Op r k => Op r (fun x => bind (k x) f)
  end.

(** [try { p } catch (e) { h e }] *)
Fixpoint try_catch {A} (p : prog A) (h : err -> prog A) : prog A :=
  match p with
  | Ret a => Ret a
  | Throw e => h e
  | Op r k => Op r (fun x => try_catch (k x) h)
  end.

(** [await] of a call: a failed call throws its error. *)
Definition send (r : req) : prog (resp_ty r) :=
  Op r (fun x => match x with inl e => Throw e | inr v => Ret v end).

(** [console.log] and [console.error] never throw. *)
Definition console_log (m : string) : prog unit := Op (ConsoleLog m) (fun _ => Ret tt).
Definition console_error (m : string) : prog unit := Op (ConsoleError m) (fun _ => Ret tt).

Notation "x <- p ;; k" := (bind p (fun x => k))
  (at level 61, p at next level, right associativity).
Notation "p ;; k" := (bind p (fun _ => k))
  (at level 61, right associativity).

Fixpoint run {A} (E : env) (tr : trace) (p : prog A) : (err + A) * trace :=
  match p with
  | Ret a => (inr a, tr)
  | Throw e => (inl e, tr)
  | Op r k => let x := E r tr in run E (tr ++ [Ev r x]) (k x)
  end.

(* ------------------------------------------------------------------ *)
(** ** String helpers *)

(** [path.join(a, b)] for the relative, already normal paths of the code. *)
Definition path_join (a b : string) : string := a +++ "/" +++ b.

Definition slash : ascii := "/"%char.
Definition backslash : ascii := ascii_of_nat 92.

(** [s.replace(/\\/g, '/')] *)
Fixpoint replace_backslashes (s : string) : string :=
  match s with
  | EmptyString => EmptyString
  | String c rest =>
      String (if Ascii.eqb c backslash then slash else c) (replace_backslashes rest)
  end.

(** The string is made of ['/'] only. *)
Fixpoint all_slashes (s : string) : bool :=
  match s with
  | EmptyString => true
  | String c rest => Ascii.eqb c slash && all_slashes rest
  end.

(** [path.basename(p)] (POSIX): trailing ['/'] are dropped, then the part
    after the last ['/'] is taken. *)
Fixpoint basename_from (s acc : string) : string :=
  match s with
  | EmptyString => acc
  | String c rest =>
      if Ascii.eqb c slash then (if all_slashes rest then acc else basename_from rest EmptyString)
      else basename_from rest (acc +++ String c EmptyString)
  end.
Definition basename (p : string) : string := basename_from p EmptyString.

(** [`${v}`] of a value that is a string or [undefined]. *)
Definition js_str (v : option string) : string :=
  match v with Some s => s | None => "undefined" end.

Definition dquote : string := String (ascii_of_nat 34) EmptyString.

(** [JSON.stringify] of an array of strings (quotes and backslashes escaped). *)
Fixpoint json_escape (s : string) : string :=
  match s with
  | EmptyString => EmptyString
  | String c rest =>
      if Ascii.eqb c (ascii_of_nat 34) || Ascii.eqb c backslash
      then String backslash (String c (json_escape rest))
      else String c (json_escape rest)
  end.
Definition json_string_array (l : list string) : string :=
  "[" +++ String.concat "," (map (fun s => dquote +++ json_escape s +++ dquote) l) +++ "]".

(* ------------------------------------------------------------------ *)
(** ** The file tree read by [uploadToS3]

    [fs.readdirSync] lists the entries of a directory in order and
    [fs.statSync] tells files from directories; anything else (sockets,
    fifos, ...) is neither and is skipped by the walk. *)
#[local] Set Warnings "-register-all".
Inductive fs_entry : Type :=
  | FsFile (name : string)
  | FsDir (name : string) (children : list fs_entry)
  | FsOther (name : string).

Section Program.

(** [mime.lookup] of the [mime-types] package. *)
Variable mime_lookup : string -> option string.
(** [__dirname] of the compiled adapter module. *)
Variable module_dirname : string.

(* ------------------------------------------------------------------ *)
(** ** [uploadToS3] (aws.js, lines 15-43) *)

(** [s3Prefix && s3Prefix.length > 0 ? s3Prefix + "/" : ""] *)
Definition s3_key_prefix (s3Prefix : string) : string :=
  if Nat.ltb 0 (String.length s3Prefix) then s3Prefix +++ "/" else "".

(** The body of the loop for one entry [item] of [directoryPath]; [prefix]
    is the already computed key prefix.  [path.relative(directoryPath,
    itemPath)] of an entry name is the name itself. *)
Fixpoint upload_item (directoryPath bucketName prefix region : string)
    (item : fs_entry) : prog unit :=
  match item with
  | FsFile name =>
      let itemPath := path_join directoryPath name in
      let contentType :=
        match mime_lookup itemPath with Some t => t | None => "application/octet-stream" end in
      let s3Params := {| Bucket := bucketName;
                         Key := prefix +++ replace_backslashes name;
                         Body := itemPath;
                         ContentType := contentType |} in
      try_catch
        (send (PutObject region s3Params) ;;
         console_log ("Successfully uploaded " +++ itemPath +++ " to " +++ bucketName
                      +++ "/" +++ prefix +++ replace_backslashes name))
        (fun error => console_error ("Failed to upload " +++ itemPath +++ ": " +++ error))
  | FsDir name children =>
      (* await uploadToS3(itemPath, bucketName, `${prefix}${item}`, region) *)
      let itemPath := path_join directoryPath name in
      let prefix' := s3_key_prefix (prefix +++ name) in
      (fix walk (items : list fs_entry) : prog unit :=
         match items with
         | [] => Ret tt
         | it :: rest => upload_item itemPath bucketName prefix' region it ;; walk rest
         end) children
  | FsOther _ => Ret tt
  end.

Fixpoint upload_items (directoryPath bucketName prefix region : string)
    (items : list fs_entry) : prog unit :=
  match items with
  | [] => Ret tt
  | it :: rest =>
      upload_item directoryPath bucketName prefix region it ;;
      upload_items directoryPath bucketName prefix region rest
  end.

(** [uploadToS3(directoryPath, bucketName, s3Prefix, region)], where [items]
    is what [fs.readdirSync(directoryPath)] and [fs.statSync] find. *)
Definition uploadToS3 (directoryPath : string) (items : list fs_entry)
    (bucketName s3Prefix region : string) : prog unit :=
  upload_items directoryPath bucketName (s3_key_prefix s3Prefix) region items.

(* ------------------------------------------------------------------ *)
(** ** [deployLambdaFunction] (aws.js, lines 51-82) *)

Definition deployLambdaFunction (functionName zipFilePath region : string)
    : prog (option string) :=
  console_log ("Reading zip file... " +++ functionName +++ " " +++ zipFilePath) ;;
  zipFile <- send (ReadFileSync zipFilePath) ;;
  console_log "Updating Lambda Function..." ;;
  try_catch
    (send (UpdateFunctionCode region functionName zipFile) ;;
     console_log "Lambda function code updated successfully.")
    (fun error => console_error ("Failed to update function code: " +++ error) ;; Throw error) ;;
  console_log "Waiting for update to complete..." ;;
  send (SetTimeout 5000) ;;
  try_catch
    (Version <- send (PublishVersion region functionName) ;;
     console_log ("Lambda function version " +++ js_str Version +++ " published successfully.") ;;
     Ret Version)
    (fun error => console_error ("Failed to publish function version: " +++ error) ;; Throw error).

(* ------------------------------------------------------------------ *)
(** ** [setupCloudFrontTrigger] (aws.js, lines 91-136) *)

Definition missing_config_error : err :=
  "Error: Missing DistributionConfig or DefaultCacheBehavior".

(** [DefaultCacheBehavior.LambdaFunctionAssociations?.Items || []] *)
Definition existing_associations (dcb : DefaultCacheBehavior) : list LambdaFunctionAssociation :=
  match LambdaFunctionAssociations_ dcb with
  | Some lfa => match Items lfa with Some l => l | None => [] end
  | None => []
  end.

(** [association => association.EventType !== 'origin-request'] *)
Definition not_origin_request (a : LambdaFunctionAssociation) : bool :=
  negb (String.eqb (EventType a) "origin-request").

(** The distribution configuration written back by the trigger setup. *)
Definition updated_distribution_config (dc : DistributionConfig) (dcb : DefaultCacheBehavior)
    (lambdaFunctionArn : string) : DistributionConfig :=
  let newAssociation := {| EventType := "origin-request";
                           LambdaFunctionARN := lambdaFunctionArn;
                           IncludeBody := None |} in
  let updatedAssociations :=
    filter not_origin_request (existing_associations dcb) ++ [newAssociation] in
  let updatedLambdaFunctionAssociations :=
    {| Quantity := length updatedAssociations; Items := Some updatedAssociations |} in
  {| CallerReference := CallerReference dc;
     Comment := Comment dc;
     Enabled := Enabled dc;
     DefaultCacheBehavior_ := Some
       {| TargetOriginId := TargetOriginId dcb;
          ViewerProtocolPolicy := ViewerProtocolPolicy dcb;
          LambdaFunctionAssociations_ := Some updatedLambdaFunctionAssociations |} |}.

Definition setupCloudFrontTrigger (functionName functionVersion distributionId region : string)
    : prog unit :=
  try_catch
    (got <- send (GetDistributionConfig region distributionId) ;;
     match DistributionConfig_ got with
     | None => Throw missing_config_error
     | Some dc =>
       match DefaultCacheBehavior_ dc with
       | None => Throw missing_config_error
       | Some dcb =>
           fc <- send (GetFunctionConfiguration region functionName) ;;
           let lambdaFunctionArn := js_str (FunctionArn fc) +++ ":" +++ functionVersion in
           let updated := updated_distribution_config dc dcb lambdaFunctionArn in
           (* IfMatch: (await cloudFront.send(getDistConfigCommand)).ETag *)
           again <- send (GetDistributionConfig region distributionId) ;;
           send (UpdateDistribution region
                   {| Id := distributionId; UpdatedConfig := updated; IfMatch := ETag again |}) ;;
           console_log "CloudFront trigger set up successfully."
       end
     end)
    (fun error => console_error ("Failed to set up CloudFront trigger: " +++ error) ;; Throw error).

(* ------------------------------------------------------------------ *)
(** ** [invalidateCache] (aws.js, lines 145-168) *)

Definition invalidateCache (distributionId : string) (paths : list string) (region : string)
    : prog unit :=
  now <- send DateNowISO ;;
  let params := {| DistributionId := distributionId;
                   PathsQuantity := length paths;
                   PathsItems := paths;
                   InvalidationCallerReference := now |} in
  try_catch
    (result <- send (CreateInvalidation region params) ;;
     match Invalidation result with
     | Some i => console_log ("Invalidation created with ID: " +++ i)
     | None => Ret tt
     end)
    (fun error => console_error ("Failed to create invalidation: " +++ error) ;; Throw error).

(* ------------------------------------------------------------------ *)
(** ** [zipDirectory] and [bundleApp] (index.ts, lines 91-143) *)

Definition zipDirectory (source out : string) : prog unit :=
  console_log ("Zipping.... " +++ source +++ " " +++ out) ;;
  send (ArchiveDirectory source out [basename out]).

Definition bundleApp : prog unit :=
  send (Rm "build") ;;
  send (EsBuild "out/server/lambda-handler/index.js" "build") ;;
  present <- send (ExistsSync "out/prerendered") ;;
  (if present then send (Cp "out/prerendered" "build/prerendered")
   else console_log "No Prerendered Directory found.") ;;
  console_log "BUILD SUCEEDED!".

(* ------------------------------------------------------------------ *)
(** ** The pipeline of [adapt] (index.ts, lines 154-199)

    [config] is the merged configuration (see [adapt] below) and [client]
    the tree that [builder.writeClient] leaves in [out/client]. *)

(** [await zipDirectory(...).then(log).catch(log)] *)
Definition package_stage : prog unit :=
  try_catch
    (zipDirectory "build" ("build" +++ "/lambda.zip") ;;
     console_log "Directory successfully zipped!")
    (fun error => console_error ("Failed to zip directory: " +++ error)).

(** Everything before [uploadToS3]: the builder output and [bundleApp]. *)
Definition build_stage : prog unit :=
  send (BuilderRimraf "out") ;;
  send (BuilderLogMinor "Copying assets...") ;;
  send (BuilderWriteClient "out/client") ;;
  prerenderedFiles <- send (BuilderWritePrerendered "out/prerendered") ;;
  send (BuilderLogMinor "Generating server function...") ;;
  send (BuilderWriteServer "out/server") ;;
  send (BuilderCopy (path_join module_dirname "handler") "out/server/lambda-handler") ;;
  send (WriteFileSync "out/server/lambda-handler/prerendered-file-list.js"
          ("export default " +++ json_string_array prerenderedFiles)) ;;
  bundleApp.

Record S3Config := { bucketName : string; prefix : string; s3_region : string }.
Record LambdaConfig := { functionName : string; lambda_region : string }.
Record CloudFrontConfig := { distributionId : string; cloudfront_region : string }.
Record AWSConfiguration := {
  s3 : S3Config;
  lambda : LambdaConfig;
  cloudfront : CloudFrontConfig
}.

(** What follows the deployment: the trigger only when a version came back. *)
Definition after_deploy (config : AWSConfiguration) (lambdaVersion : option string) : prog unit :=
  match lambdaVersion with
  | Some v =>
      setupCloudFrontTrigger (functionName (lambda config)) v
        (distributionId (cloudfront config)) (cloudfront_region (cloudfront config))
  | None => Ret tt
  end ;;
  invalidateCache (distributionId (cloudfront config)) ["/*"] (cloudfront_region (cloudfront config)).

Definition adapt_pipeline (config : AWSConfiguration) (client : list fs_entry) : prog unit :=
  build_stage ;;
  uploadToS3 "out/client" client (bucketName (s3 config)) (prefix (s3 config))
    (s3_region (s3 config)) ;;
  package_stage ;;
  lambdaVersion <- deployLambdaFunction (functionName (lambda config)) ("build" +++ "/lambda.zip")
                     (lambda_region (lambda config)) ;;
  after_deploy config lambdaVersion.

(** The uploads the walk of [uploadToS3] attempts, in order: one
    [PutObject] per regular file of the tree. *)
Fixpoint plan_item (directoryPath bucketName prefix : string) (item : fs_entry)
    : list PutObjectRequest :=
  match item with
  | FsFile name =>
      let itemPath := path_join directoryPath name in
      [{| Bucket := bucketName;
          Key := prefix +++ replace_backslashes name;
          Body := itemPath;
          ContentType :=
            match mime_lookup itemPath with Some t => t | None => "application/octet-stream" end |}]
  | FsDir name children =>
      (fix walk (items : list fs_entry) : list PutObjectRequest :=
         match items with
         | [] => []
         | it :: rest =>
             plan_item (path_join directoryPath name) bucketName
               (s3_key_prefix (prefix +++ name)) it ++ walk rest
         end) children
  | FsOther _ => []
  end.

Definition upload_plan (directoryPath : string) (items : list fs_entry)
    (bucketName s3Prefix : string) : list PutObjectRequest :=
  flat_map (plan_item directoryPath bucketName (s3_key_prefix s3Prefix)) items.

End Program.

(** The console line that follows an upload, by its outcome. *)
Definition upload_report (p : PutObjectRequest) (x : err + unit) : req :=
  match x with
  | inr _ => ConsoleLog ("Successfully uploaded " +++ Body p +++ " to " +++ Bucket p +++ "/" +++ Key p)
  | inl e => ConsoleError ("Failed to upload " +++ Body p +++ ": " +++ e)
  end.

(** The calls of one upload: the [PutObject] and the console line after it. *)
Definition upload_block (region : string) (p : PutObjectRequest) (blk : trace) : Prop :=
  exists (x : err + unit) (y : err + resp_ty (upload_report p x)),
    blk = [Ev (PutObject region p) x; Ev (upload_report p x) y].

(** Induction over file trees, with a statement for the entry lists. *)
Definition fs_entry_induction (P : fs_entry -> Prop) (Q : list fs_entry -> Prop)
    (Hfile : forall n, P (FsFile n))
    (Hdir : forall n ch, Q ch -> P (FsDir n ch))
    (Hother : forall n, P (FsOther n))
    (Hnil : Q [])
    (Hcons : forall e l, P e -> Q l -> Q (e :: l)) : forall e, P e :=
  fix F (e : fs_entry) : P e :=
    match e with
    | FsFile n => Hfile n
    | FsDir n ch =>
        Hdir n ch ((fix G (l : list fs_entry) : Q l :=
                      match l with
                      | [] => Hnil
                      | e' :: l' => Hcons e' l' (F e') (G l')
                      end) ch)
    | FsOther n => Hother n
    end.

(* ------------------------------------------------------------------ *)
(** ** JavaScript objects on a heap, for [deepMerge] *)

Inductive jsval : Type :=
  | JUndef
  | JNull
  | JBool (b : bool)
  | JNum (z : Z)
  | JStr (s : string)
  | JRef (l : nat).

(** A plain object: its own properties in insertion order. *)
Definition obj := list (string * jsval).
Definition heap := list obj.

(** JavaScript truthiness ([NaN] is not modelled). *)
Definition truthy (v : jsval) : bool :=
  match v with
  | JUndef | JNull => false
  | JBool b => b
  | JNum z => negb (Z.eqb z 0)
  | JStr s => negb (String.eqb s "")
  | JRef _ => true
  end.

(** [obj && typeof obj === 'object']: the heap holds plain objects only. *)
Definition isObject (v : jsval) : bool :=
  match v with JRef _ => true | _ => false end.

Definition obj_get (o : obj) (key : string) : jsval :=
  match find (fun kv => String.eqb (fst kv) key) o with
  | Some kv => snd kv
  | None => JUndef
  end.

(** [o[key] = v]: an existing property keeps its place, a new one is added
    last.  Always an own data property: the [__proto__] setter of
    [Object.prototype] is not modelled. *)
Fixpoint obj_set (o : obj) (key : string) (v : jsval) : obj :=
  match o with
  | [] => [(key, v)]
  | (k, w) :: rest =>
      if String.eqb k key then (k, v) :: rest else (k, w) :: obj_set rest key v
  end.

Fixpoint heap_update (h : heap) (l : nat) (f : obj -> obj) : heap :=
  match h, l with
  | [], _ => []
  | o :: rest, 0 => f o :: rest
  | o :: rest, S l' => o :: heap_update rest l' f
  end.

Definition heap_obj (h : heap) (l : nat) : obj :=
  match nth_error h l with Some o => o | None => [] end.

(** [target[key]], read from the object's own properties: the properties
    inherited from [Object.prototype] are not modelled. *)
Definition get_prop (h : heap) (l : nat) (key : string) : jsval := obj_get (heap_obj h l) key.

(** [target[key] = v] *)
Definition set_prop (h : heap) (l : nat) (key : string) (v : jsval) : heap :=
  heap_update h l (fun o => obj_set o key v).

(** [Object.keys(source)], in insertion order (integer-like keys are not
    moved first). *)
Definition obj_keys (h : heap) (l : nat) : list string := map fst (heap_obj h l).

Definition alloc (h : heap) (o : obj) : heap * jsval := (h ++ [o], JRef (length h)).

(** [Object.assign({}, v)] *)
Definition object_assign_empty (h : heap) (v : jsval) : heap * jsval :=
  match v with
  | JRef l => alloc h (heap_obj h l)
  | _ => alloc h []
  end.

Inductive merge_result : Type :=
  | MOk (h : heap) (v : jsval)
  | MThrow (h : heap) (e : err).

Definition invalid_arguments_error : err :=
  "Error: Invalid arguments: Both target and source must be objects".

(** [deepMerge(target, source)] (index.ts, lines 216-235).  [fuel] bounds
    the depth of the recursion, as the engine's call stack does. *)
Fixpoint deepMerge (fuel : nat) (h : heap) (target source : jsval) {struct fuel} : merge_result :=
  match fuel with
  | O => MThrow h "RangeError: Maximum call stack size exceeded"
  | S fuel' =>
    if negb (isObject target) || negb (isObject source) then MThrow h invalid_arguments_error
    else
    match target, source with
    | JRef t, JRef s =>
      (fix each (keys : list string) (h : heap) : merge_result :=
         match keys with
         | [] => MOk h target
         | key :: keys' =>
           let targetValue := get_prop h t key in
           let sourceValue := get_prop h s key in
           if isObject targetValue && isObject sourceValue then
             let (h1, copy) := object_assign_empty h targetValue in
             match deepMerge fuel' h1 copy sourceValue with
             | MOk h2 merged => each keys' (set_prop h2 t key merged)
             | MThrow h2 e => MThrow h2 e
             end
           else
             each keys' (set_prop h t key (if truthy sourceValue then sourceValue else targetValue))
         end) (obj_keys h s) h
    | _, _ => MThrow h invalid_arguments_error
    end
  end.

Definition merge_fuel : nat := 1000.

(** An [AWSConfiguration] object literal, allocated on the heap. *)
Definition alloc_config (h : heap) (c : AWSConfiguration) : heap * jsval :=
  let (h1, s3v) := alloc h [("bucketName", JStr (bucketName (s3 c)));
                            ("prefix", JStr (prefix (s3 c)));
                            ("region", JStr (s3_region (s3 c)))] in
  let (h2, lv) := alloc h1 [("functionName", JStr (functionName (lambda c)));
                            ("region", JStr (lambda_region (lambda c)))] in
  let (h3, cv) := alloc h2 [("distributionId", JStr (distributionId (cloudfront c)));
                            ("region", JStr (cloudfront_region (cloudfront c)))] in
  alloc h3 [("s3", s3v); ("lambda", lv); ("cloudfront", cv)].

Definition get_obj (h : heap) (v : jsval) (key : string) : jsval :=
  match v with JRef l => get_prop h l key | _ => JUndef end.

Definition get_str (h : heap) (v : jsval) (key : string) : option string :=
  match get_obj h v key with JStr s => Some s | _ => None end.

(** Reads the merged configuration back as the typed record. *)
Definition decode_config (h : heap) (v : jsval) : option AWSConfiguration :=
  let s3v := get_obj h v "s3" in
  let lv := get_obj h v "lambda" in
  let cv := get_obj h v "cloudfront" in
  match get_str h s3v "bucketName", get_str h s3v "prefix", get_str h s3v "region",
        get_str h lv "functionName", get_str h lv "region",
        get_str h cv "distributionId", get_str h cv "region" with
  | Some b, Some p, Some r1, Some f, Some r2, Some d, Some r3 =>
      Some {| s3 := {| bucketName := b; prefix := p; s3_region := r1 |};
              lambda := {| functionName := f; lambda_region := r2 |};
              cloudfront := {| distributionId := d; cloudfront_region := r3 |} |}
  | _, _, _, _, _, _, _ => None
  end.

(** [defaultConfig] (index.ts, lines 79-83). *)
Definition defaultConfig_value : AWSConfiguration :=
  {| s3 := {| bucketName := ""; prefix := ""; s3_region := "ap-south-1" |};
     lambda := {| functionName := ""; lambda_region := "us-east-1" |};
     cloudfront := {| distributionId := ""; cloudfront_region := "us-east-1" |} |}.

(** The merge rule as the spec states it: for each leaf, the user's value
    when it is non-empty, else the default. *)
Definition spec_leaf_merge (user dflt : string) : string :=
  if String.eqb user "" then dflt else user.

Definition spec_config_merge (user dflt : AWSConfiguration) : AWSConfiguration :=
  {| s3 := {| bucketName := spec_leaf_merge (bucketName (s3 user)) (bucketName (s3 dflt));
              prefix := spec_leaf_merge (prefix (s3 user)) (prefix (s3 dflt));
              s3_region := spec_leaf_merge (s3_region (s3 user)) (s3_region (s3 dflt)) |};
     lambda := {| functionName := spec_leaf_merge (functionName (lambda user))
                                                  (functionName (lambda dflt));
                  lambda_region := spec_leaf_merge (lambda_region (lambda user))
                                                   (lambda_region (lambda dflt)) |};
     cloudfront := {| distributionId := spec_leaf_merge (distributionId (cloudfront user))
                                                        (distributionId (cloudfront dflt));
                      cloudfront_region := spec_leaf_merge (cloudfront_region (cloudfront user))
                                                           (cloudfront_region (cloudfront dflt)) |} |}.

(** The module's heap once [defaultConfig] is initialised, and the object
    the constant [defaultConfig] refers to. *)
Definition module_init : heap * jsval := alloc_config [] defaultConfig_value.

(** [const config = deepMerge(defaultConfig, configInput)]: the heap after
    the merge and the configuration [adapt] goes on with. *)
Definition adapt_config (h : heap) (defaultConfig configInput : jsval)
    : heap * (err + AWSConfiguration) :=
  match deepMerge merge_fuel h defaultConfig configInput with
  | MOk h' v =>
      (h', match decode_config h' v with
           | Some c => inr c
           | None => inl "TypeError: configuration of the wrong shape"
           end)
  | MThrow h' e => (h', inl e)
  end.

(** [adapter(configInput).adapt(builder)]: the heap it leaves and the
    asynchronous rest of its body. *)
Definition adapt (mime_lookup : string -> option string) (module_dirname : string)
    (h : heap) (defaultConfig configInput : jsval) (client : list fs_entry)
    : heap * prog unit :=
  let (h', c) := adapt_config h defaultConfig configInput in
  (h', console_log "Building..." ;;
       match c with
       | inl e => Throw e
       | inr config => adapt_pipeline mime_lookup module_dirname config client
       end).

(* ------------------------------------------------------------------ *)
(** ** A single-writer AWS platform

    The answers of the platform are a function of the calls made so far:
    [replay] folds the successful [UpdateDistribution] writes of a trace into
    the state.  A conditional write succeeds only when [IfMatch] is the
    current ETag, and every successful write changes the ETag. *)

Record world := {
  w_dists : list (string * (DistributionConfig * string));
  w_functions : list (string * string);
  w_version : string;
  w_archive_ok : bool
}.

Fixpoint lookup {A} (k : string) (l : list (string * A)) : option A :=
  match l with
  | [] => None
  | (k', v) :: rest => if String.eqb k' k then Some v else lookup k rest
  end.

Fixpoint assoc_set {A} (k : string) (v : A) (l : list (string * A)) : list (string * A) :=
  match l with
  | [] => []
  | (k', w) :: rest => if String.eqb k' k then (k', v) :: rest else (k', w) :: assoc_set k v rest
  end.

Definition apply_update (w : world) (u : UpdateDistributionRequest) : world :=
  match lookup (Id u) (w_dists w) with
  | Some (_, etag) =>
      {| w_dists := assoc_set (Id u) (UpdatedConfig u, "x" +++ etag) (w_dists w);
         w_functions := w_functions w;
         w_version := w_version w;
         w_archive_ok := w_archive_ok w |}
  | None => w
  end.

Definition replay_event (w : world) (e : event) : world :=
  match e with
  | existT _ r x =>
      match r return (err + resp_ty r) -> world with
      | UpdateDistribution _ u => fun x => match x with inr _ => apply_update w u | inl _ => w end
      | _ => fun _ => w
      end x
  end.

Definition replay (w : world) (tr : trace) : world := fold_left replay_event tr w.

Definition cloud_answer (w : world) (r : req) : err + resp_ty r :=
  match r as r0 return (err + resp_ty r0)%type with
  | BuilderWritePrerendered _ => inr []
  | ExistsSync _ => inr false
  | ReadFileSync _ => inr "PK"
  | DateNowISO => inr "2026-10-18T00:00:00.000Z"
  | ArchiveDirectory _ _ _ => if w_archive_ok w then inr tt else inl "Error: EACCES"
  | PublishVersion _ _ => inr (Some (w_version w))
  | GetDistributionConfig _ d =>
      match lookup d (w_dists w) with
      | Some (c, etag) => inr {| DistributionConfig_ := Some c; ETag := Some etag |}
      | None => inl "NoSuchDistribution"
      end
  | GetFunctionConfiguration _ f =>
      match lookup f (w_functions w) with
      | Some arn => inr {| FunctionArn := Some arn |}
      | None => inl "ResourceNotFoundException"
      end
  | UpdateDistribution _ u =>
      match lookup (Id u) (w_dists w) with
      | Some (_, etag) =>
          match IfMatch u with
          | Some m => if String.eqb m etag then inr tt else inl "PreconditionFailed"
          | None => inl "InvalidIfMatchVersion"
          end
      | None => inl "NoSuchDistribution"
      end
  | CreateInvalidation _ _ => inr {| Invalidation := Some "I1" |}
  | ConsoleLog _ | ConsoleError _ | BuilderRimraf _ | BuilderLogMinor _
  | BuilderWriteClient _ | BuilderWriteServer _ | BuilderCopy _ _ | WriteFileSync _ _
  | Rm _ | EsBuild _ _ | Cp _ _ | SetTimeout _ | PutObject _ _ | UpdateFunctionCode _ _ _ => inr tt
  end.

Definition cloud_env (w : world) : env := fun r tr => cloud_answer (replay w tr) r.

(** The associations of a distribution's default cache behaviour. *)
Definition dist_associations (c : DistributionConfig) : list LambdaFunctionAssociation :=
  match DefaultCacheBehavior_ c with Some dcb => existing_associations dcb | None => [] end.

Definition is_origin_request (a : LambdaFunctionAssociation) : bool :=
  String.eqb (EventType a) "origin-request".

(* ------------------------------------------------------------------ *)
(** ** Reading traces *)

(** The stage of the pipeline a call belongs to ([None] for console output). *)
Inductive stage := SBuild | SPublish | SPackage | SDeploy | SBind | SInvalidate.

Definition req_stage (r : req) : option stage :=
  match r with
  | ConsoleLog _ | ConsoleError _ => None
  | BuilderRimraf _ | BuilderLogMinor _ | BuilderWriteClient _ | BuilderWritePrerendered _
  | BuilderWriteServer _ | BuilderCopy _ _ | WriteFileSync _ _ | Rm _ | EsBuild _ _
  | ExistsSync _ | Cp _ _ => Some SBuild
  | PutObject _ _ => Some SPublish
  | ArchiveDirectory _ _ _ => Some SPackage
  | ReadFileSync _ | UpdateFunctionCode _ _ _ | SetTimeout _ | PublishVersion _ _ => Some SDeploy
  | GetDistributionConfig _ _ | GetFunctionConfiguration _ _ | UpdateDistribution _ _ => Some SBind
  | DateNowISO | CreateInvalidation _ _ => Some SInvalidate
  end.

Definition stage_ok (s : stage) (r : req) : Prop :=
  req_stage r = None \/ req_stage r = Some s.

Definition in_stage (s : stage) (e : event) : Prop := stage_ok s (projT1 e).

Definition is_update (r : req) : bool :=
  match r with UpdateDistribution _ _ => true | _ => false end.

Definition is_put (r : req) : bool :=
  match r with PutObject _ _ => true | _ => false end.

Definition is_archive (r : req) : bool :=
  match r with ArchiveDirectory _ _ _ => true | _ => false end.

Definition is_bind_call (r : req) : bool :=
  match req_stage r with Some SBind => true | _ => false end.

(** The answer recorded for the first [PublishVersion] call of a trace. *)
Definition publish_answer (e : event) : option (err + option string) :=
  match e with
  | existT _ r x =>
      match r return (err + resp_ty r) -> option (err + option string) with
      | PublishVersion _ _ => fun x => Some x
      | _ => fun _ => None
      end x
  end.

(** The answer recorded for an [ArchiveDirectory] call. *)
Definition archive_answer (e : event) : option (err + unit) :=
  match e with
  | existT _ r x =>
      match r return (err + resp_ty r) -> option (err + unit) with
      | ArchiveDirectory _ _ _ => fun x => Some x
      | _ => fun _ => None
      end x
  end.

Fixpoint first_some {A B} (f : A -> option B) (l : list A) : option B :=
  match l with
  | [] => None
  | a :: rest => match f a with Some b => Some b | None => first_some f rest end
  end.

Fixpoint index_where {A} (p : A -> bool) (l : list A) : option nat :=
  match l with
  | [] => None
  | a :: rest => if p a then Some 0 else option_map S (index_where p rest)
  end.

(* ------------------------------------------------------------------ *)
(** ** Sample inputs *)

Definition sample_arn : string := "arn:aws:lambda:us-east-1:123456789012:function:svelte-ssr".

Definition sample_dcb : DefaultCacheBehavior := {|
  TargetOriginId := "s3-origin";
  ViewerProtocolPolicy := "redirect-to-https";
  LambdaFunctionAssociations_ := Some {|
    Quantity := 2;
    Items := Some [
      {| EventType := "viewer-request"; LambdaFunctionARN := sample_arn +++ ":3";
         IncludeBody := None |};
      {| EventType := "origin-request"; LambdaFunctionARN := sample_arn +++ ":5";
         IncludeBody := Some false |}] |} |}.

Definition sample_dc : DistributionConfig := {|
  CallerReference := "ref-1"; Comment := "site"; Enabled := true;
  DefaultCacheBehavior_ := Some sample_dcb |}.

(** A distribution config without a default cache behaviour. *)
Definition bare_dc : DistributionConfig := {|
  CallerReference := "ref-2"; Comment := "bare"; Enabled := true;
  DefaultCacheBehavior_ := None |}.

Definition sample_world (archive_ok : bool) : world := {|
  w_dists := [("E1", (sample_dc, "ETAG1")); ("E2", (bare_dc, "ETAG2"))];
  w_functions := [("svelte-ssr", sample_arn)];
  w_version := "7";
  w_archive_ok := archive_ok |}.

(** The platform of [sample_world], except that [PublishVersion] answers
    without a version. *)
Definition no_version_env (w : world) : env :=
  fun r tr =>
    match r as r0 return (err + resp_ty r0)%type with
    | PublishVersion _ _ => inr None
    | r0 => cloud_env w r0 tr
    end.

Definition sample_config : AWSConfiguration := {|
  s3 := {| bucketName := "my-site"; prefix := "assets"; s3_region := "eu-west-1" |};
  lambda := {| functionName := "svelte-ssr"; lambda_region := "" |};
  cloudfront := {| distributionId := "E1"; cloudfront_region := "us-east-1" |} |}.

Definition sample_client : list fs_entry :=
  [FsFile "favicon.png"; FsDir "_app" [FsFile "start.js"]].

Definition sample_mime (p : string) : option string := None.

(** [adapt] on a fresh module, with [sample_config] as the user input. *)
Definition sample_adapt (E : env) (config : AWSConfiguration) : (err + unit) * trace :=
  let (h0, dflt) := module_init in
  let (h1, input) := alloc_config h0 config in
  run E [] (snd (adapt sample_mime "node_modules/adapter" h1 dflt input sample_client)).

(** The merged configuration [adapt] computes on a fresh module. *)
Definition sample_merged (config : AWSConfiguration) : err + AWSConfiguration :=
  let (h0, dflt) := module_init in
  let (h1, input) := alloc_config h0 config in
  snd (adapt_config h1 dflt input).

(** The platform of [sample_world], except that [PublishVersion] is refused. *)
Definition publish_denied_env (w : world) : env :=
  fun r tr =>
    match r as r0 return (err + resp_ty r0)%type with
    | PublishVersion _ _ => inl "AccessDeniedException"
    | r0 => cloud_env w r0 tr
    end.

(** A heap with a target object at 0 and a source object at 1, each with a
    nested object. *)
Definition sample_heap : heap :=
  [[("a", JNum 1%Z); ("b", JStr "x"); ("c", JRef 2)];
   [("a", JNum 2%Z); ("c", JRef 3)];
   [("d", JNum 1%Z)];
   [("e", JNum 0%Z)]].

(* ------------------------------------------------------------------ *)
(** ** Views of traces and heaps *)

(** The regular files of a tree, each with its path relative to the walked
    directory (names joined by ['/']) and the key suffix [uploadToS3] gives
    it: the file name has its backslashes replaced, the directory names are
    kept as they are. *)
Fixpoint tree_files (item : fs_entry) : list (string * string) :=
  match item with
  | FsFile n => [(n, replace_backslashes n)]
  | FsDir n ch =>
      (fix walk (l : list fs_entry) : list (string * string) :=
         match l with
         | [] => []
         | it :: rest =>
             map (fun pk => (n +++ "/" +++ fst pk, n +++ "/" +++ snd pk)) (tree_files it)
             ++ walk rest
         end) ch
  | FsOther _ => []
  end.

(** Every directory of the tree has a non-empty name. *)
Fixpoint dir_names_nonempty (item : fs_entry) : bool :=
  match item with
  | FsDir n ch =>
      negb (String.eqb n "") &&
      (fix walk (l : list fs_entry) : bool :=
         match l with [] => true | it :: rest => dir_names_nonempty it && walk rest end) ch
  | _ => true
  end.

(** The [PutObject] calls of a trace, with their regions, in order. *)
Definition put_request (e : event) : list (string * PutObjectRequest) :=
  match projT1 e with PutObject region p => [(region, p)] | _ => [] end.

Definition put_requests (tr : trace) : list (string * PutObjectRequest) :=
  flat_map put_request tr.

Definition is_console (r : req) : bool :=
  match r with ConsoleLog _ | ConsoleError _ => true | _ => false end.

(** The calls of a trace other than console output. *)
Definition calls (tr : trace) : trace := filter (fun e => negb (is_console (projT1 e))) tr.

(** The string has no ['/']. *)
Fixpoint no_slash (s : string) : bool :=
  match s with
  | EmptyString => true
  | String c rest => negb (Ascii.eqb c slash) && no_slash rest
  end.

(** The [Object.keys(source).forEach(...)] loop of [deepMerge], for the
    target object at [t] and the source object at [s]. *)
Fixpoint merge_keys (fuel' t s : nat) (keys : list string) (h : heap) : merge_result :=
  match keys with
  | [] => MOk h (JRef t)
  | key :: keys' =>
    let targetValue := get_prop h t key in
    let sourceValue := get_prop h s key in
    if isObject targetValue && isObject sourceValue then
      let (h1, copy) := object_assign_empty h targetValue in
      match deepMerge fuel' h1 copy sourceValue with
      | MOk h2 merged => merge_keys fuel' t s keys' (set_prop h2 t key merged)
      | MThrow h2 e => MThrow h2 e
      end
    else
      merge_keys fuel' t s keys' (set_prop h t key (if truthy sourceValue then sourceValue else targetValue))
  end.

(** The properties of [Object.prototype]. On a plain object without an own
    property of one of these names, [target[key]] finds the inherited value,
    and assigning [__proto__] changes the prototype; the heap model reads
    and writes own properties only, and agrees with JavaScript on the other
    keys. *)
Definition object_prototype_keys : list string :=
  ["__proto__"; "constructor"; "hasOwnProperty"; "isPrototypeOf"; "propertyIsEnumerable";
   "toLocaleString"; "toString"; "valueOf"; "__defineGetter__"; "__defineSetter__";
   "__lookupGetter__"; "__lookupSetter__"].

Definition inherited_key (key : string) : bool := existsb (String.eqb key) object_prototype_keys.

(** The heap a merge leaves, whether it returns or throws. *)
Definition merge_heap (r : merge_result) : heap :=
  match r with MOk h _ => h | MThrow h _ => h end.

(** [h'] is [h] with at most the object at [t] changed and new objects
    added after the existing ones. *)
Definition heap_frame (t : nat) (h h' : heap) : Prop :=
  length h <= length h' /\
  forall l, l < length h -> l <> t -> nth_error h' l = nth_error h l.

Definition is_after_deploy_call (r : req) : bool :=
  match req_stage r with Some SBind | Some SInvalidate => true | _ => false end.

(* ================================================================== *)
(** * Properties *)

(* ------------------------------------------------------------------ *)
(** ** Running programs *)

Lemma run_bind {A B} (E : env) (tr : trace) (p : prog A) (f : A -> prog B) :
  run E tr (bind p f) =
  match run E tr p with
  | (inl e, tr') => (inl e, tr')
  | (inr a, tr') => run E tr' (f a)
  end.
Proof.
  revert tr; induction p as [a|e|r k IH]; intros tr; simpl; auto.
Qed.

Lemma run_try_catch {A} (E : env) (tr : trace) (p : prog A) (h : err -> prog A) :
  run E tr (try_catch p h) =
  match run E tr p with
  | (inl e, tr') => run E tr' (h e)
  | (inr a, tr') => (inr a, tr')
  end.
Proof.
  revert tr; induction p as [a|e|r k IH]; intros tr; simpl; auto.
Qed.

Lemma run_extends {A} (E : env) (tr : trace) (p : prog A) :
  exists seg, snd (run E tr p) = tr ++ seg.
Proof.
  revert tr; induction p as [a|e|r k IH]; intros tr; simpl.
  - exists []; rewrite app_nil_r; reflexivity.
  - exists []; rewrite app_nil_r; reflexivity.
  - destruct (IH (E r tr) (tr ++ [Ev r (E r tr)])) as [seg Hs].
    rewrite Hs, <- app_assoc; eexists; reflexivity.
Qed.

(** A program whose every call satisfies [P]. *)
Inductive only (P : req -> Prop) {A} : prog A -> Prop :=
  | only_ret a : only P (Ret a)
  | only_throw e : only P (Throw e)
  | only_op r k : P r -> (forall x, only P (k x)) -> only P (Op r k).

Lemma only_bind (P : req -> Prop) {A B} (p : prog A) (f : A -> prog B) :
  only P p -> (forall a, only P (f a)) -> only P (bind p f).
Proof.
  intros Hp Hf; induction Hp; simpl; [apply Hf | constructor | constructor; auto].
Qed.

Lemma only_try_catch (P : req -> Prop) {A} (p : prog A) (h : err -> prog A) :
  only P p -> (forall e, only P (h e)) -> only P (try_catch p h).
Proof.
  intros Hp Hh; induction Hp; simpl; [constructor | apply Hh | constructor; auto].
Qed.

Lemma only_send (P : req -> Prop) (r : req) : P r -> only P (send r).
Proof. intros H; constructor; auto; intros [e|v]; constructor. Qed.

Lemma only_console_log (P : req -> Prop) m : P (ConsoleLog m) -> only P (console_log m).
Proof. intros H; constructor; auto; intros; constructor. Qed.

Lemma only_console_error (P : req -> Prop) m : P (ConsoleError m) -> only P (console_error m).
Proof. intros H; constructor; auto; intros; constructor. Qed.

Lemma run_only (P : req -> Prop) {A} (E : env) (tr : trace) (p : prog A) :
  only P p -> exists seg, snd (run E tr p) = tr ++ seg /\ Forall (fun e => P (projT1 e)) seg.
Proof.
  intros Hp; revert tr; induction Hp as [a|e|r k Hr Hk IH]; intros tr; simpl.
  - exists []; rewrite app_nil_r; auto.
  - exists []; rewrite app_nil_r; auto.
  - destruct (IH (E r tr) (tr ++ [Ev r (E r tr)])) as [seg [Hs Hf]].
    rewrite Hs, <- app_assoc; exists (Ev r (E r tr) :: seg); split; auto.
Qed.

Create HintDb only_db.
#[local] Hint Resolve only_bind only_try_catch only_send only_console_log
  only_console_error : only_db.
#[local] Hint Constructors only : only_db.

(** Proves [only P p] for a program written with the combinators. *)
Ltac solve_only :=
  repeat (first
    [ match goal with |- stage_ok _ _ => solve [unfold stage_ok; simpl; auto] end
    | progress (intros; simpl)
    | apply only_bind
    | apply only_try_catch
    | apply only_send
    | match goal with |- only ?P (send ?r) =>
        refine (only_send P r _ : only P (send r)) end
    | apply only_console_log
    | apply only_console_error
    | match goal with |- only _ (Ret _) => constructor end
    | match goal with |- only _ (Throw _) => constructor end
    | match goal with |- only _ (Op _ _) => constructor end
    | match goal with |- only _ (match ?x with _ => _ end) => destruct x end
    | match goal with |- context [if ?b then _ else _] => destruct b end ]);
  try (unfold stage_ok; simpl; auto).

(* ------------------------------------------------------------------ *)
(** ** The platform answers from the replayed state *)

Lemma replay_app w tr1 tr2 : replay w (tr1 ++ tr2) = replay (replay w tr1) tr2.
Proof. unfold replay; apply fold_left_app. Qed.

Lemma run_cloud_shift {A} (w : world) (tr1 tr2 : trace) (p : prog A) :
  run (cloud_env w) (tr1 ++ tr2) p =
  let (r, t) := run (cloud_env (replay w tr1)) tr2 p in (r, tr1 ++ t).
Proof.
  revert tr2; induction p as [a|e|r k IH]; intros tr2; simpl; auto.
  assert (Hx : cloud_env w r (tr1 ++ tr2) = cloud_env (replay w tr1) r tr2)
    by (unfold cloud_env; rewrite replay_app; reflexivity).
  rewrite Hx, <- app_assoc, IH. reflexivity.
Qed.

Lemma lookup_assoc_set_same {A} (k : string) (v : A) l :
  lookup k l <> None -> lookup k (assoc_set k v l) = Some v.
Proof.
  induction l as [|[k' w] rest IH]; simpl; [congruence|].
  destruct (String.eqb k' k) eqn:E; simpl; rewrite ?E; auto.
Qed.

(* ------------------------------------------------------------------ *)
(** ** The trigger setup on the platform *)

Lemma setup_trigger_cloud (w : world) name ver id region dc dcb etag arn :
  lookup id (w_dists w) = Some (dc, etag) ->
  DefaultCacheBehavior_ dc = Some dcb ->
  lookup name (w_functions w) = Some arn ->
  let (r, tr) := run (cloud_env w) [] (setupCloudFrontTrigger name ver id region) in
  r = inr tt /\
  lookup id (w_dists (replay w tr)) =
    Some (updated_distribution_config dc dcb (arn +++ ":" +++ ver), "x" +++ etag) /\
  w_functions (replay w tr) = w_functions w.
Proof.
  intros Hd Hb Hf.
  unfold setupCloudFrontTrigger, cloud_env; simpl.
  rewrite Hd; simpl. rewrite Hb; simpl. rewrite Hf; simpl. rewrite Hd; simpl.
  rewrite Hd, String.eqb_refl; simpl.
  unfold apply_update; simpl. rewrite Hd; simpl.
  split; [reflexivity|split; [|reflexivity]].
  apply lookup_assoc_set_same; rewrite Hd; discriminate.
Qed.

Lemma updated_associations dc dcb a :
  dist_associations (updated_distribution_config dc dcb a) =
  filter not_origin_request (existing_associations dcb) ++
    [{| EventType := "origin-request"; LambdaFunctionARN := a; IncludeBody := None |}].
Proof. reflexivity. Qed.

Lemma filter_origin_of_not_origin l :
  filter is_origin_request (filter not_origin_request l) = [].
Proof.
  induction l as [|x l IH]; [reflexivity|].
  cbn [filter]. unfold not_origin_request at 1.
  destruct (String.eqb (EventType x) "origin-request") eqn:E; cbn [negb filter].
  - exact IH.
  - unfold is_origin_request at 1; rewrite E; exact IH.
Qed.

Lemma filter_not_origin_idem l :
  filter not_origin_request (filter not_origin_request l) = filter not_origin_request l.
Proof.
  induction l as [|x l IH]; [reflexivity|].
  cbn [filter]; destruct (not_origin_request x) eqn:E; cbn [filter].
  - rewrite E, IH; reflexivity.
  - exact IH.
Qed.

Lemma updated_origin_request dc dcb a :
  filter is_origin_request (dist_associations (updated_distribution_config dc dcb a)) =
    [{| EventType := "origin-request"; LambdaFunctionARN := a; IncludeBody := None |}].
Proof.
  rewrite updated_associations, filter_app, filter_origin_of_not_origin; reflexivity.
Qed.

Lemma updated_other_events dc dcb a :
  filter not_origin_request (dist_associations (updated_distribution_config dc dcb a)) =
  filter not_origin_request (existing_associations dcb).
Proof.
  rewrite updated_associations, filter_app, filter_not_origin_idem; simpl.
  rewrite app_nil_r; reflexivity.
Qed.

(** C1: after [setupCloudFrontTrigger] on a distribution with at most one
    ['origin-request'] association, the default cache behaviour has exactly
    one ['origin-request'] association, pointing at the fetched function ARN
    suffixed with [":" ++ version], and the associations of every other event
    type are those it had, in the same order. *)
Theorem setupCloudFrontTrigger_replaces_by_event_type (w : world) name ver id region
    dc dcb etag arn
    (Hd : lookup id (w_dists w) = Some (dc, etag))
    (Hb : DefaultCacheBehavior_ dc = Some dcb)
    (Hf : lookup name (w_functions w) = Some arn)
    (Hone : length (filter is_origin_request (dist_associations dc)) <= 1) :
  let (r, tr) := run (cloud_env w) [] (setupCloudFrontTrigger name ver id region) in
  r = inr tt /\
  exists dc' etag',
    lookup id (w_dists (replay w tr)) = Some (dc', etag') /\
    filter is_origin_request (dist_associations dc') =
      [{| EventType := "origin-request"; LambdaFunctionARN := arn +++ ":" +++ ver;
          IncludeBody := None |}] /\
    filter not_origin_request (dist_associations dc') =
      filter not_origin_request (dist_associations dc).
Proof.
  pose proof (setup_trigger_cloud w name ver id region dc dcb etag arn Hd Hb Hf) as H.
  destruct (run (cloud_env w) [] _) as [r tr].
  destruct H as [Hr [Hl _]]; split; auto.
  do 2 eexists; split; [exact Hl|].
  split; [apply updated_origin_request|].
  rewrite updated_other_events; unfold dist_associations; rewrite Hb; reflexivity.
Qed.

(** C2: two runs of [setupCloudFrontTrigger] with different versions leave
    one ['origin-request'] association, the second run's. *)
Theorem setupCloudFrontTrigger_twice_keeps_last (w : world) name v1 v2 id region
    dc dcb etag arn
    (Hd : lookup id (w_dists w) = Some (dc, etag))
    (Hb : DefaultCacheBehavior_ dc = Some dcb)
    (Hf : lookup name (w_functions w) = Some arn)
    (Hne : v1 <> v2) :
  let (r, tr) := run (cloud_env w) []
                   (setupCloudFrontTrigger name v1 id region ;;
                    setupCloudFrontTrigger name v2 id region) in
  r = inr tt /\
  exists dc' etag',
    lookup id (w_dists (replay w tr)) = Some (dc', etag') /\
    filter is_origin_request (dist_associations dc') =
      [{| EventType := "origin-request"; LambdaFunctionARN := arn +++ ":" +++ v2;
          IncludeBody := None |}].
Proof.
  rewrite run_bind.
  pose proof (setup_trigger_cloud w name v1 id region dc dcb etag arn Hd Hb Hf) as H1.
  destruct (run (cloud_env w) [] (setupCloudFrontTrigger name v1 id region)) as [r1 tr1].
  destruct H1 as [-> [Hl1 Hf1]].
  rewrite <- (app_nil_r tr1), run_cloud_shift.
  set (dc1 := updated_distribution_config dc dcb (arn +++ ":" +++ v1)).
  assert (Hb1 : exists dcb1, DefaultCacheBehavior_ dc1 = Some dcb1) by (eexists; reflexivity).
  destruct Hb1 as [dcb1 Hb1].
  assert (Hf1' : lookup name (w_functions (replay w tr1)) = Some arn) by (rewrite Hf1; exact Hf).
  pose proof (setup_trigger_cloud (replay w tr1) name v2 id region dc1 dcb1 ("x" +++ etag) arn
                Hl1 Hb1 Hf1') as H2.
  destruct (run (cloud_env (replay w tr1)) [] _) as [r2 tr2].
  destruct H2 as [Hr2 [Hl2 _]]; split; auto.
  rewrite replay_app; do 2 eexists; split; [exact Hl2|].
  apply updated_origin_request.
Qed.

(* ------------------------------------------------------------------ *)
(** ** The trigger setup against any environment *)

(** C3: when the fetched configuration has no [DistributionConfig] or no
    [DefaultCacheBehavior], [setupCloudFrontTrigger] fails with the error
    "Missing DistributionConfig or DefaultCacheBehavior" (the schema error)
    after the single read: it logs the failure, makes no
    [UpdateDistribution] call, and the distribution state is unchanged. *)
Theorem setupCloudFrontTrigger_missing_section (E : env) (tr0 : trace) name ver id region got
    (Hget : E (GetDistributionConfig region id) tr0 = inr got)
    (Hmissing : DistributionConfig_ got = None \/
                exists dc, DistributionConfig_ got = Some dc /\ DefaultCacheBehavior_ dc = None) :
  let (r, tr) := run E tr0 (setupCloudFrontTrigger name ver id region) in
  r = inl missing_config_error /\
  (exists x, tr = tr0 ++ [Ev (GetDistributionConfig region id) (inr got);
                         Ev (ConsoleError ("Failed to set up CloudFront trigger: "
                                           +++ missing_config_error)) x]) /\
  forallb (fun e => negb (is_update (projT1 e))) tr = forallb (fun e => negb (is_update (projT1 e))) tr0 /\
  (forall w, replay w tr = replay w tr0).
Proof.
  unfold setupCloudFrontTrigger; simpl; rewrite Hget; simpl.
  destruct Hmissing as [Hn | [dc [Hs Hn]]].
  - rewrite Hn; simpl.
    split; [reflexivity|]. split; [eexists; rewrite <- ?app_assoc; reflexivity|].
    rewrite <- ?app_assoc, forallb_app; split.
    + simpl; rewrite andb_true_r; reflexivity.
    + intros w; rewrite <- ?app_assoc, replay_app; reflexivity.
  - rewrite Hs; simpl; rewrite Hn; simpl.
    split; [reflexivity|]. split; [eexists; rewrite <- ?app_assoc; reflexivity|].
    rewrite <- ?app_assoc, forallb_app; split.
    + simpl; rewrite andb_true_r; reflexivity.
    + intros w; rewrite <- ?app_assoc, replay_app; reflexivity.
Qed.

(** C4: whenever [setupCloudFrontTrigger] issues its [UpdateDistribution]
    call, its calls are: the read of the configuration, the read of the
    function, a second, fresh read of the configuration, and the write,
    whose [IfMatch] is the ETag of that second read. *)
Theorem setupCloudFrontTrigger_refetches_token (E : env) (tr0 : trace) name ver id region
    (new : trace)
    (Hrun : snd (run E tr0 (setupCloudFrontTrigger name ver id region)) = tr0 ++ new)
    (Hwrite : existsb (fun e => is_update (projT1 e)) new = true) :
  exists got1 fc got2 u x rest,
    new = Ev (GetDistributionConfig region id) (inr got1)
          :: Ev (GetFunctionConfiguration region name) (inr fc)
          :: Ev (GetDistributionConfig region id) (inr got2)
          :: Ev (UpdateDistribution region u) x :: rest /\
    Id u = id /\ IfMatch u = ETag got2.
Proof.
  unfold setupCloudFrontTrigger in Hrun; simpl in Hrun.
  repeat (first
    [ match type of Hrun with context [E ?r ?t] => destruct (E r t) eqn:? end
    | match type of Hrun with context [match ?x with _ => _ end] => destruct x eqn:? end ];
    simpl in Hrun);
  repeat rewrite <- app_assoc in Hrun; simpl in Hrun; apply app_inv_head in Hrun; subst new;
  simpl in Hwrite; try discriminate.
  all: do 6 eexists; split; [reflexivity|]; split; reflexivity.
Qed.

(* ------------------------------------------------------------------ *)
(** ** The configuration merge of [adapt] *)

Lemma truthy_pick a d :
  (if truthy (JStr a) then JStr a else JStr d) = JStr (spec_leaf_merge a d).
Proof. unfold truthy, spec_leaf_merge; destruct (String.eqb a ""); reflexivity. Qed.

Lemma spec_leaf_merge_empty_default a : spec_leaf_merge a "" = a.
Proof.
  unfold spec_leaf_merge; destruct (String.eqb a "") eqn:E; auto.
  apply String.eqb_eq in E; auto.
Qed.

Lemma spec_leaf_merge_nonempty a d : d <> "" -> spec_leaf_merge a d <> "".
Proof.
  unfold spec_leaf_merge; destruct (String.eqb a "") eqn:E; auto.
  intros _ Ha; subst; discriminate.
Qed.

Arguments truthy : simpl never.

(** Reduces a merge on a heap of known shape, leaving the leaves symbolic. *)
Ltac reduce_merge := lazy -[truthy spec_leaf_merge]; rewrite ?truthy_pick.

Lemma adapt_config_first_call i :
  let (h0, dflt) := module_init in
  let (h1, in1) := alloc_config h0 i in
  exists h2, adapt_config h1 dflt in1 = (h2, inr (spec_config_merge i defaultConfig_value)).
Proof.
  destruct i as [[b p r1] [f r2] [d r3]].
  unfold module_init, alloc_config, alloc; cbn [length app].
  eexists. unfold adapt_config. reduce_merge. lazy -[truthy spec_leaf_merge]. reflexivity.
Qed.

(** C8 (as the code has it): merging a configuration over [defaultConfig]
    keeps the user's region when it is non-empty and otherwise the default
    region, which is non-empty; but the defaults of [bucketName], [prefix],
    [functionName] and [distributionId] are empty strings, so these four
    leaves are exactly the user's strings, empty ones included. *)
Theorem adapt_config_leaves i :
  let (h0, dflt) := module_init in
  let (h1, in1) := alloc_config h0 i in
  exists h2 c,
    adapt_config h1 dflt in1 = (h2, inr c) /\
    bucketName (s3 c) = bucketName (s3 i) /\
    prefix (s3 c) = prefix (s3 i) /\
    functionName (lambda c) = functionName (lambda i) /\
    distributionId (cloudfront c) = distributionId (cloudfront i) /\
    s3_region (s3 c) = spec_leaf_merge (s3_region (s3 i)) "ap-south-1" /\
    lambda_region (lambda c) = spec_leaf_merge (lambda_region (lambda i)) "us-east-1" /\
    cloudfront_region (cloudfront c) = spec_leaf_merge (cloudfront_region (cloudfront i)) "us-east-1" /\
    s3_region (s3 c) <> "" /\ lambda_region (lambda c) <> "" /\
    cloudfront_region (cloudfront c) <> "".
Proof.
  pose proof (adapt_config_first_call i) as H.
  destruct module_init as [h0 dflt]; destruct (alloc_config h0 i) as [h1 in1].
  destruct H as [h2 H]; exists h2, (spec_config_merge i defaultConfig_value).
  split; [exact H|]. cbn.
  rewrite !spec_leaf_merge_empty_default.
  repeat split; apply spec_leaf_merge_nonempty; discriminate.
Qed.

(** C10: [deepMerge] writes into its target and returns it, and [adapt]
    passes the module's [defaultConfig] as the target: after a first
    [adapt], [defaultConfig] holds the first caller's merged values, and a
    second [adapt] merges its input over them rather than over the
    baked-in defaults. *)
Theorem adapt_merge_mutates_defaultConfig i1 i2 :
  let (h0, dflt) := module_init in
  let (h1, in1) := alloc_config h0 i1 in
  exists h2,
    deepMerge merge_fuel h1 dflt in1 = MOk h2 dflt /\
    decode_config h2 dflt = Some (spec_config_merge i1 defaultConfig_value) /\
    let (h3, in2) := alloc_config h2 i2 in
    exists h4,
      deepMerge merge_fuel h3 dflt in2 = MOk h4 dflt /\
      adapt_config h3 dflt in2 =
        (h4, inr (spec_config_merge i2 (spec_config_merge i1 defaultConfig_value))).
Proof.
  destruct i1 as [[b p r1] [f r2] [d r3]], i2 as [[b' p' r1'] [f' r2'] [d' r3']].
  unfold module_init, alloc_config, alloc; cbn [length app].
  eexists; split.
  { lazy -[truthy spec_leaf_merge]. reflexivity. }
  rewrite ?truthy_pick.
  split; [lazy -[truthy spec_leaf_merge]; reflexivity|].
  cbn [length app].
  eexists; split.
  { lazy -[truthy spec_leaf_merge]. reflexivity. }
  unfold adapt_config; rewrite ?truthy_pick.
  reduce_merge. lazy -[truthy spec_leaf_merge]. reflexivity.
Qed.

(* ------------------------------------------------------------------ *)
(** ** The upload walk *)

Lemma upload_item_dir mime dir bucket prefix region name ch :
  upload_item mime dir bucket prefix region (FsDir name ch) =
  upload_items mime (path_join dir name) bucket (s3_key_prefix (prefix +++ name)) region ch.
Proof.
  cbn [upload_item]; induction ch as [|it rest IH]; [reflexivity|].
  cbn [upload_items]; rewrite <- IH; reflexivity.
Qed.

Lemma plan_item_dir mime dir bucket prefix name ch :
  plan_item mime dir bucket prefix (FsDir name ch) =
  flat_map (plan_item mime (path_join dir name) bucket (s3_key_prefix (prefix +++ name))) ch.
Proof.
  cbn [plan_item]; induction ch as [|it rest IH]; [reflexivity|].
  cbn [flat_map]; rewrite <- IH; reflexivity.
Qed.

Lemma upload_file_run mime (E : env) tr0 dir bucket prefix region name :
  exists blocks,
    run E tr0 (upload_item mime dir bucket prefix region (FsFile name)) = (inr tt, tr0 ++ concat blocks) /\
    Forall2 (upload_block region) (plan_item mime dir bucket prefix (FsFile name)) blocks.
Proof.
  cbn [upload_item plan_item].
  rewrite run_try_catch, run_bind; cbn [run send].
  match goal with |- context [E (PutObject ?rg ?p) ?t] => destruct (E (PutObject rg p) t) as [e|[]] eqn:Hx end;
    cbn [run console_log console_error].
  - eexists [[_; _]]; split.
    + rewrite <- app_assoc; reflexivity.
    + constructor; [|constructor]. exists (inl e); eexists; reflexivity.
  - eexists [[_; _]]; split.
    + rewrite <- app_assoc; reflexivity.
    + constructor; [|constructor]. exists (inr tt); eexists; reflexivity.
Qed.

Lemma upload_walk_run mime (E : env) bucket region :
  forall item dir prefix tr0,
  exists blocks,
    run E tr0 (upload_item mime dir bucket prefix region item) = (inr tt, tr0 ++ concat blocks) /\
    Forall2 (upload_block region) (plan_item mime dir bucket prefix item) blocks.
Proof.
  refine (fs_entry_induction
    (fun item => forall dir prefix tr0, exists blocks,
       run E tr0 (upload_item mime dir bucket prefix region item) = (inr tt, tr0 ++ concat blocks) /\
       Forall2 (upload_block region) (plan_item mime dir bucket prefix item) blocks)
    (fun l => forall dir prefix tr0, exists blocks,
       run E tr0 (upload_items mime dir bucket prefix region l) = (inr tt, tr0 ++ concat blocks) /\
       Forall2 (upload_block region) (flat_map (plan_item mime dir bucket prefix) l) blocks)
    _ _ _ _ _).
  - intros n dir prefix tr0; apply upload_file_run.
  - intros n ch IH dir prefix tr0; rewrite upload_item_dir, plan_item_dir; apply IH.
  - intros n dir prefix tr0; exists []; split; [rewrite app_nil_r; reflexivity | constructor].
  - intros dir prefix tr0; exists []; split; [rewrite app_nil_r; reflexivity | constructor].
  - intros e l IHe IHl dir prefix tr0.
    cbn [upload_items flat_map]; rewrite run_bind.
    destruct (IHe dir prefix tr0) as [b1 [H1 F1]]; rewrite H1.
    destruct (IHl dir prefix (tr0 ++ concat b1)) as [b2 [H2 F2]]; rewrite H2.
    exists (b1 ++ b2); split.
    + rewrite concat_app, app_assoc; reflexivity.
    + apply Forall2_app; auto.
Qed.

Lemma uploadToS3_runs mime (E : env) (tr0 : trace) dir items bucket s3Prefix region :
  let (r, tr) := run E tr0 (uploadToS3 mime dir items bucket s3Prefix region) in
  r = inr tt /\
  exists blocks,
    tr = tr0 ++ concat blocks /\
    Forall2 (upload_block region) (upload_plan mime dir items bucket s3Prefix) blocks.
Proof.
  unfold uploadToS3, upload_plan.
  generalize (s3_key_prefix s3Prefix) as prefix; intros prefix.
  revert tr0; induction items as [|it rest IH]; intros tr0.
  - simpl; split; auto; exists []; split; [rewrite app_nil_r; reflexivity | constructor].
  - cbn [upload_items flat_map]; rewrite run_bind.
    destruct (upload_walk_run mime E bucket region it dir prefix tr0) as [b1 [H1 F1]]; rewrite H1.
    specialize (IH (tr0 ++ concat b1)).
    destruct (run E (tr0 ++ concat b1) _) as [r tr]; destruct IH as [Hr [b2 [H2 F2]]].
    split; auto; exists (b1 ++ b2); split.
    + rewrite H2, concat_app, app_assoc; reflexivity.
    + apply Forall2_app; auto.
Qed.

(** C7: a failed upload is logged ([console.error]) and skipped: whatever the
    store answers, the walk attempts every file of the tree in order, each
    [PutObject] followed by its console line, and [uploadToS3] as a whole
    succeeds. *)
Theorem uploadToS3_best_effort mime (E : env) (tr0 : trace) dir items bucket s3Prefix region :
  let (r, tr) := run E tr0 (uploadToS3 mime dir items bucket s3Prefix region) in
  r = inr tt /\
  exists blocks,
    tr = tr0 ++ concat blocks /\
    Forall2 (upload_block region) (upload_plan mime dir items bucket s3Prefix) blocks.
Proof. apply uploadToS3_runs. Qed.

(* ------------------------------------------------------------------ *)
(** ** The stages of the pipeline *)

Lemma run_bind_seg (P : req -> Prop) {A B} (E : env) (tr : trace) (p : prog A) (f : A -> prog B) :
  only P p ->
  exists s1, Forall (fun e => P (projT1 e)) s1 /\
    ((exists e, run E tr (bind p f) = (inl e, tr ++ s1)) \/
     (exists a, run E tr (bind p f) = run E (tr ++ s1) (f a))).
Proof.
  intros Hp; rewrite run_bind.
  destruct (run_only P E tr p Hp) as [s [Hs HF]].
  destruct (run E tr p) as [[e|a] t]; simpl in Hs; subst t; exists s; split; eauto.
Qed.

Lemma build_stage_only dirname : only (stage_ok SBuild) (build_stage dirname).
Proof. unfold build_stage, bundleApp; solve_only. Qed.

Lemma upload_only mime bucket region :
  forall item dir prefix, only (stage_ok SPublish) (upload_item mime dir bucket prefix region item).
Proof.
  refine (fs_entry_induction
    (fun item => forall dir prefix,
       only (stage_ok SPublish) (upload_item mime dir bucket prefix region item))
    (fun l => forall dir prefix,
       only (stage_ok SPublish) (upload_items mime dir bucket prefix region l))
    _ _ _ _ _).
  - intros n dir prefix; cbn [upload_item]; solve_only.
  - intros n ch IH dir prefix; rewrite upload_item_dir; apply IH.
  - intros; constructor.
  - intros; constructor.
  - intros e l IHe IHl dir prefix; cbn [upload_items]; apply only_bind; auto.
Qed.

Lemma uploadToS3_only mime dir items bucket s3Prefix region :
  only (stage_ok SPublish) (uploadToS3 mime dir items bucket s3Prefix region).
Proof.
  unfold uploadToS3; generalize (s3_key_prefix s3Prefix); intros prefix.
  induction items as [|it rest IH]; cbn [upload_items]; [constructor|].
  apply only_bind; auto; intros; apply upload_only.
Qed.

Lemma package_stage_only : only (stage_ok SPackage) package_stage.
Proof. unfold package_stage, zipDirectory; solve_only. Qed.

Lemma deploy_only fn zip region : only (stage_ok SDeploy) (deployLambdaFunction fn zip region).
Proof. unfold deployLambdaFunction; solve_only. Qed.

Lemma setup_only fn v id region : only (stage_ok SBind) (setupCloudFrontTrigger fn v id region).
Proof. unfold setupCloudFrontTrigger; solve_only. Qed.

Lemma invalidate_only id paths region : only (stage_ok SInvalidate) (invalidateCache id paths region).
Proof. unfold invalidateCache; solve_only. Qed.

Lemma package_stage_resolves (E : env) (t : trace) :
  exists s, run E t package_stage = (inr tt, t ++ s) /\ Forall (in_stage SPackage) s.
Proof.
  destruct (run_only _ E t package_stage package_stage_only) as [s [Hs Fs]].
  exists s; split; auto.
  destruct (run E t package_stage) as [r t'] eqn:Hr; simpl in Hs; subst t'; f_equal.
  unfold package_stage in Hr; rewrite run_try_catch in Hr.
  destruct (run E t _) as [[e|[]] t1]; [simpl in Hr|]; congruence.
Qed.

Lemma deploy_runs (E : env) (t : trace) fn zip region :
  exists sd,
    snd (run E t (deployLambdaFunction fn zip region)) = t ++ sd /\
    Forall (in_stage SDeploy) sd /\
    (forall v, first_some publish_answer sd = Some (inr v) ->
               fst (run E t (deployLambdaFunction fn zip region)) = inr v).
Proof.
  destruct (run_only _ E t _ (deploy_only fn zip region)) as [sd [Hs Fs]].
  exists sd; split; [exact Hs|]; split; [exact Fs|].
  intros v Hv; revert Hs; unfold deployLambdaFunction; simpl.
  repeat (first
    [ match goal with |- context [E ?r ?t] =>
        lazymatch r with
        | ConsoleLog _ => fail
        | ConsoleError _ => fail
        | _ => destruct (E r t) eqn:?
        end end
    | match goal with |- context [match ?x with _ => _ end] => destruct x eqn:? end ];
    simpl);
  intros Hs; repeat rewrite <- app_assoc in Hs; simpl in Hs; apply app_inv_head in Hs; subst sd;
  simpl in Hv; congruence.
Qed.

Lemma first_some_app {A B} (f : A -> option B) l1 l2 :
  first_some f (l1 ++ l2) =
  match first_some f l1 with Some b => Some b | None => first_some f l2 end.
Proof.
  induction l1 as [|a l1 IH]; simpl; auto.
  destruct (f a); auto.
Qed.

Lemma publish_answer_stage e a : publish_answer e = Some a -> req_stage (projT1 e) = Some SDeploy.
Proof. destruct e as [r x]; destruct r; simpl; congruence. Qed.

Lemma archive_answer_stage e a : archive_answer e = Some a -> req_stage (projT1 e) = Some SPackage.
Proof. destruct e as [r x]; destruct r; simpl; congruence. Qed.

Lemma first_some_publish_elsewhere s l :
  Forall (in_stage s) l -> s <> SDeploy -> first_some publish_answer l = None.
Proof.
  intros F Hs; induction F as [|e l He F IH]; simpl; auto.
  destruct (publish_answer e) eqn:Ha; auto.
  apply publish_answer_stage in Ha; destruct He as [H|H]; congruence.
Qed.

Lemma first_some_archive_elsewhere s l :
  Forall (in_stage s) l -> s <> SPackage -> first_some archive_answer l = None.
Proof.
  intros F Hs; induction F as [|e l He F IH]; simpl; auto.
  destruct (archive_answer e) eqn:Ha; auto.
  apply archive_answer_stage in Ha; destruct He as [H|H]; congruence.
Qed.

Lemma no_bind_call_elsewhere s l :
  Forall (in_stage s) l -> s <> SBind -> forallb (fun e => negb (is_bind_call (projT1 e))) l = true.
Proof.
  intros F Hs; induction F as [|e l He F IH]; simpl; auto.
  rewrite IH, andb_true_r; unfold is_bind_call.
  unfold in_stage, stage_ok in He.
  destruct He as [H|H]; rewrite H; [reflexivity|destruct s; simpl; congruence].
Qed.

Lemma Forall_in_stage_nil s : Forall (in_stage s) [].
Proof. constructor. Qed.

#[local] Hint Resolve Forall_in_stage_nil : core.

(** Splits the first call group off a sequenced program. *)
Ltac seg_step Hp s F H :=
  match goal with
  | |- context [run ?E ?t (bind ?p ?f)] =>
      destruct (run_bind_seg _ E t p f Hp) as [s [F H]]
  end.

Ltac seg_step_in Hyp Hp s F H :=
  match type of Hyp with
  | context [run ?E ?t (bind ?p ?f)] =>
      destruct (run_bind_seg _ E t p f Hp) as [s [F H]]
  end.

(** C5 (as the code has it): the calls of [adapt] after the merge come in
    consecutive groups: the builder and [bundleApp], then the asset uploads,
    then the archive, then the function deployment, then the trigger
    binding, then the cache invalidation; each group ends before the next
    starts, so the archive is created after the assets are uploaded. *)
Theorem adapt_stage_order mime dirname config client (E : env) (tr0 : trace) :
  exists sb sp sa sd st si,
    snd (run E tr0 (adapt_pipeline mime dirname config client)) =
      tr0 ++ sb ++ sp ++ sa ++ sd ++ st ++ si /\
    Forall (in_stage SBuild) sb /\ Forall (in_stage SPublish) sp /\
    Forall (in_stage SPackage) sa /\ Forall (in_stage SDeploy) sd /\
    Forall (in_stage SBind) st /\ Forall (in_stage SInvalidate) si.
Proof.
  unfold adapt_pipeline.
  seg_step (build_stage_only dirname) sb Fb H.
  destruct H as [[e H]|[u H]]; rewrite H.
  { exists sb, [], [], [], [], []; rewrite !app_nil_r; repeat split; auto. }
  seg_step (uploadToS3_only mime "out/client" client (bucketName (s3 config))
              (prefix (s3 config)) (s3_region (s3 config))) sp Fp H1.
  destruct H1 as [[e H1]|[u1 H1]]; rewrite H1.
  { exists sb, sp, [], [], [], []; rewrite !app_nil_r, app_assoc; repeat split; auto. }
  rewrite run_bind.
  destruct (package_stage_resolves E ((tr0 ++ sb) ++ sp)) as [sa [H2 Fa]]; rewrite H2.
  rewrite run_bind.
  destruct (run_only _ E (((tr0 ++ sb) ++ sp) ++ sa) _
              (deploy_only (functionName (lambda config)) ("build" +++ "/lambda.zip")
                 (lambda_region (lambda config)))) as [sd [Hd Fd]].
  destruct (run E _ (deployLambdaFunction _ _ _)) as [[e|v] t3]; simpl in Hd; subst t3.
  { exists sb, sp, sa, sd, [], []; rewrite !app_nil_r, !app_assoc; repeat split; auto. }
  unfold after_deploy.
  assert (Hb : only (stage_ok SBind)
                 (match v with
                  | Some v0 => setupCloudFrontTrigger (functionName (lambda config)) v0
                                 (distributionId (cloudfront config))
                                 (cloudfront_region (cloudfront config))
                  | None => Ret tt
                  end)) by (destruct v; [apply setup_only | constructor]).
  seg_step Hb st Ft H4.
  destruct H4 as [[e H4]|[u4 H4]]; rewrite H4.
  { exists sb, sp, sa, sd, st, []; rewrite !app_nil_r, !app_assoc; repeat split; auto. }
  destruct (run_only _ E (((((tr0 ++ sb) ++ sp) ++ sa) ++ sd) ++ st) _
              (invalidate_only (distributionId (cloudfront config)) ["/*"]
                 (cloudfront_region (cloudfront config)))) as [si [Hi Fi]]; rewrite Hi.
  exists sb, sp, sa, sd, st, si; rewrite !app_assoc; repeat split; auto.
Qed.

Lemma deploy_reads_archive (E : env) (t : trace) fn zip region :
  exists x sd,
    snd (run E t (deployLambdaFunction fn zip region)) = t ++ sd /\
    In (Ev (ReadFileSync zip) x) sd.
Proof.
  unfold deployLambdaFunction, console_log, send; simpl.
  set (t1 := t ++ _).
  exists (E (ReadFileSync zip) t1).
  match goal with |- context [run E ?t2 ?p] =>
    destruct (run_extends E t2 p) as [s Hs] end.
  rewrite Hs; unfold t1; eexists; rewrite <- !app_assoc; split; [reflexivity|].
  simpl; auto.
Qed.

Lemma invalidate_runs (E : env) (t : trace) id paths region :
  exists x s,
    snd (run E t (invalidateCache id paths region)) = t ++ s /\
    In (Ev DateNowISO x) s /\
    match x with
    | inr now =>
        exists y, In (Ev (CreateInvalidation region
                             {| DistributionId := id; PathsQuantity := length paths;
                                PathsItems := paths; InvalidationCallerReference := now |}) y) s
    | inl _ => True
    end.
Proof.
  unfold invalidateCache, send; simpl.
  exists (E DateNowISO t).
  destruct (E DateNowISO t) as [e|now] eqn:Hn; simpl.
  - eexists; split; [reflexivity|]; split; simpl; auto.
  - match goal with |- context [run E ?t2 ?p] =>
      destruct (run_extends E t2 p) as [s Hs] end.
    rewrite Hs; eexists; rewrite <- !app_assoc; split; [reflexivity|].
    split; [simpl; auto|].
    eexists; simpl; auto.
Qed.

Lemma package_stage_runs (E : env) (t : trace) :
  exists y a x,
    run E t package_stage =
      (inr tt, t ++ [Ev (ConsoleLog ("Zipping.... " +++ "build" +++ " " +++ ("build" +++ "/lambda.zip"))) y;
                     Ev (ArchiveDirectory "build" ("build" +++ "/lambda.zip") ["lambda.zip"]) a; x]) /\
    match a with
    | inl e => exists z, x = Ev (ConsoleError ("Failed to zip directory: " +++ e)) z
    | inr _ => exists z, x = Ev (ConsoleLog "Directory successfully zipped!") z
    end.
Proof.
  assert (Hb : basename ("build" +++ "/lambda.zip") = "lambda.zip") by reflexivity.
  unfold package_stage, zipDirectory; rewrite Hb; unfold console_log, console_error, send; simpl.
  match goal with |- context [E (ArchiveDirectory ?a ?b ?c) ?t'] =>
    destruct (E (ArchiveDirectory a b c) t') as [e|u] eqn:Ha end; simpl;
  (do 3 eexists; split; [rewrite <- !app_assoc; reflexivity|]); simpl; eauto.
Qed.

Lemma deploy_then_reads_archive (E : env) (t : trace) fn zip region (f : option string -> prog unit) :
  exists x post,
    snd (run E t (bind (deployLambdaFunction fn zip region) f)) = t ++ post /\
    In (Ev (ReadFileSync zip) x) post.
Proof.
  rewrite run_bind.
  destruct (deploy_reads_archive E t fn zip region) as [x [sd [Hd Hin]]]; exists x.
  destruct (run E t (deployLambdaFunction fn zip region)) as [[e|v] t3]; simpl in Hd; subst t3.
  - exists sd; split; [reflexivity|exact Hin].
  - destruct (run_extends E (t ++ sd) (f v)) as [s Hs].
    exists (sd ++ s); rewrite Hs, app_assoc; split; [reflexivity|apply in_or_app; left; exact Hin].
Qed.

(** C6 (as the code has it): a failure of the archive creation does not
    abort [adapt].  Whenever the archive call of a run fails with [e], the
    [.catch] after [zipDirectory] logs ["Failed to zip directory: " ++ e]
    right after it, and the stage resolves.  The rest of the run is the run
    of the code that follows the archive stage, the same code that follows
    a successful archive: [deployLambdaFunction] (which reads
    ["build/lambda.zip"] and then updates the function code), then the
    trigger binding and the cache invalidation.  The read of
    ["build/lambda.zip"] does occur after the log. *)
Theorem adapt_continues_after_archive_failure mime dirname config client
    (E : env) (tr0 new : trace) (e : err) :
  snd (run E tr0 (adapt_pipeline mime dirname config client)) = tr0 ++ new ->
  first_some archive_answer new = Some (inl e) ->
  exists pre y post,
    new = pre ++ [Ev (ArchiveDirectory "build" ("build" +++ "/lambda.zip") ["lambda.zip"]) (inl e);
                  Ev (ConsoleError ("Failed to zip directory: " +++ e)) y] ++ post /\
    run E tr0 (adapt_pipeline mime dirname config client) =
      run E (tr0 ++ pre ++ [Ev (ArchiveDirectory "build" ("build" +++ "/lambda.zip") ["lambda.zip"]) (inl e);
                            Ev (ConsoleError ("Failed to zip directory: " +++ e)) y])
        (lambdaVersion <- deployLambdaFunction (functionName (lambda config)) ("build" +++ "/lambda.zip")
                            (lambda_region (lambda config)) ;;
         after_deploy config lambdaVersion) /\
    exists x, In (Ev (ReadFileSync ("build" +++ "/lambda.zip")) x) post.
Proof.
  intros Hrun Harch; unfold adapt_pipeline in Hrun |- *.
  seg_step_in Hrun (build_stage_only dirname) sb Fb H.
  destruct H as [[e1 H]|[u H]]; rewrite H in Hrun |- *.
  { exfalso; simpl in Hrun; apply app_inv_head in Hrun; subst new.
    rewrite (first_some_archive_elsewhere SBuild) in Harch; [discriminate|exact Fb|discriminate]. }
  seg_step_in Hrun (uploadToS3_only mime "out/client" client (bucketName (s3 config))
              (prefix (s3 config)) (s3_region (s3 config))) sp Fp H1.
  destruct H1 as [[e1 H1]|[u1 H1]]; rewrite H1 in Hrun |- *.
  { exfalso; simpl in Hrun; rewrite <- app_assoc in Hrun; apply app_inv_head in Hrun; subst new.
    rewrite first_some_app, (first_some_archive_elsewhere SBuild), (first_some_archive_elsewhere SPublish)
      in Harch; try discriminate; assumption. }
  rewrite run_bind in Hrun |- *.
  destruct (package_stage_runs E ((tr0 ++ sb) ++ sp)) as (y0 & a & x & Hp & Hx); rewrite Hp in Hrun |- *.
  cbv beta iota in Hrun |- *.
  match type of Hrun with
  | context [run E ?T (bind (deployLambdaFunction ?fn ?zip ?rg) ?f)] =>
      destruct (deploy_then_reads_archive E T fn zip rg f) as [z [post [Hd Hin]]]
  end.
  rewrite Hd, <- !app_assoc in Hrun; apply app_inv_head in Hrun; subst new.
  rewrite !first_some_app, (first_some_archive_elsewhere SBuild sb), (first_some_archive_elsewhere SPublish sp)
    in Harch by (assumption || discriminate).
  simpl in Harch; injection Harch as ->.
  destruct Hx as [w ->].
  exists (sb ++ sp ++ [Ev (ConsoleLog ("Zipping.... " +++ "build" +++ " " +++ ("build" +++ "/lambda.zip"))) y0]), w, post.
  split; [rewrite <- !app_assoc; reflexivity|].
  split; [rewrite <- !app_assoc; reflexivity|].
  exists z; exact Hin.
Qed.

(** C9: when [deployLambdaFunction] resolves with an undefined version, the
    run makes no call of [setupCloudFrontTrigger] (no trigger-binding call at
    all), and still invokes [invalidateCache]: it reads the clock that starts
    [invalidateCache] and, when the clock answers, asks the distribution of
    the configuration for an invalidation of exactly ["/*"]. *)
Theorem adapt_undefined_version_skips_binding mime dirname config client
    (E : env) (tr0 new : trace) :
  snd (run E tr0 (adapt_pipeline mime dirname config client)) = tr0 ++ new ->
  first_some publish_answer new = Some (inr None) ->
  forallb (fun e => negb (is_bind_call (projT1 e))) new = true /\
  exists x, In (Ev DateNowISO x) new /\
    match x with
    | inr now =>
        exists y, In (Ev (CreateInvalidation (cloudfront_region (cloudfront config))
                            {| DistributionId := distributionId (cloudfront config);
                               PathsQuantity := 1; PathsItems := ["/*"];
                               InvalidationCallerReference := now |}) y) new
    | inl _ => True
    end.
Proof.
  intros Hrun Hpub; unfold adapt_pipeline in Hrun.
  seg_step_in Hrun (build_stage_only dirname) sb Fb H.
  destruct H as [[e1 H]|[u H]]; rewrite H in Hrun.
  { simpl in Hrun; apply app_inv_head in Hrun; subst new.
    rewrite (first_some_publish_elsewhere SBuild) in Hpub; [discriminate|exact Fb|discriminate]. }
  seg_step_in Hrun (uploadToS3_only mime "out/client" client (bucketName (s3 config))
              (prefix (s3 config)) (s3_region (s3 config))) sp Fp H1.
  destruct H1 as [[e1 H1]|[u1 H1]]; rewrite H1 in Hrun.
  { simpl in Hrun; rewrite <- app_assoc in Hrun; apply app_inv_head in Hrun; subst new.
    rewrite first_some_app, (first_some_publish_elsewhere SBuild), (first_some_publish_elsewhere SPublish)
      in Hpub; try discriminate; assumption. }
  rewrite run_bind in Hrun.
  destruct (package_stage_resolves E ((tr0 ++ sb) ++ sp)) as [sa [H2 Fa]]; rewrite H2 in Hrun.
  rewrite run_bind in Hrun.
  destruct (deploy_runs E (((tr0 ++ sb) ++ sp) ++ sa) (functionName (lambda config))
              ("build" +++ "/lambda.zip") (lambda_region (lambda config))) as [sd [Hd [Fd Hv]]].
  assert (Eb := first_some_publish_elsewhere SBuild sb Fb ltac:(discriminate)).
  assert (Ep := first_some_publish_elsewhere SPublish sp Fp ltac:(discriminate)).
  assert (Ea := first_some_publish_elsewhere SPackage sa Fa ltac:(discriminate)).
  destruct (run E _ (deployLambdaFunction _ _ _)) as [[e2|v] t3] eqn:Hdep; simpl in Hd; subst t3.
  { exfalso; rewrite <- !app_assoc in Hrun; apply app_inv_head in Hrun; subst new.
    rewrite !first_some_app, Eb, Ep, Ea in Hpub.
    specialize (Hv _ Hpub); simpl in Hv; discriminate. }
  assert (Hb : only (stage_ok SBind)
                 (match v with
                  | Some v0 => setupCloudFrontTrigger (functionName (lambda config)) v0
                                 (distributionId (cloudfront config))
                                 (cloudfront_region (cloudfront config))
                  | None => Ret tt
                  end)) by (destruct v; [apply setup_only | constructor]).
  unfold after_deploy in Hrun.
  seg_step_in Hrun Hb st Ft H4.
  assert (Hinv := invalidate_only (distributionId (cloudfront config)) ["/*"]
                    (cloudfront_region (cloudfront config))).
  assert (Hv' : v = None).
  { destruct (first_some publish_answer sd) as [b|] eqn:Hsd.
    - destruct (run_extends E ((((tr0 ++ sb) ++ sp) ++ sa) ++ sd)
                  (bind (match v with
                         | Some v0 => setupCloudFrontTrigger (functionName (lambda config)) v0
                                        (distributionId (cloudfront config))
                                        (cloudfront_region (cloudfront config))
                         | None => Ret tt
                         end)
                        (fun _ => invalidateCache (distributionId (cloudfront config)) ["/*"]
                                    (cloudfront_region (cloudfront config))))) as [r Hr].
      rewrite Hr, <- !app_assoc in Hrun; apply app_inv_head in Hrun; subst new.
      rewrite !first_some_app, Eb, Ep, Ea, Hsd in Hpub.
      injection Hpub as Hb'; subst b.
      specialize (Hv None eq_refl); simpl in Hv; congruence.
    - exfalso.
      destruct H4 as [[e4 H4]|[u4 H4]]; rewrite H4 in Hrun.
      + simpl in Hrun; rewrite <- !app_assoc in Hrun; apply app_inv_head in Hrun; subst new.
        rewrite !first_some_app, Eb, Ep, Ea, Hsd,
          (first_some_publish_elsewhere SBind) in Hpub; [discriminate|exact Ft|discriminate].
      + destruct (run_only _ E (((((tr0 ++ sb) ++ sp) ++ sa) ++ sd) ++ st) _ Hinv) as [si [Hi Fi]].
        rewrite Hi, <- !app_assoc in Hrun; apply app_inv_head in Hrun; subst new.
        rewrite !first_some_app, Eb, Ep, Ea, Hsd,
          (first_some_publish_elsewhere SBind), (first_some_publish_elsewhere SInvalidate) in Hpub;
          try discriminate; assumption. }
  subst v; clear H4; cbn [bind] in Hrun.
  destruct (invalidate_runs E ((((tr0 ++ sb) ++ sp) ++ sa) ++ sd) (distributionId (cloudfront config))
              ["/*"] (cloudfront_region (cloudfront config))) as [x [si [Hi [Hx Hc]]]].
  destruct (run_only _ E ((((tr0 ++ sb) ++ sp) ++ sa) ++ sd) _ Hinv) as [si' [Hi' Fi]].
  rewrite Hi in Hi'; apply app_inv_head in Hi'; subst si'.
  rewrite Hi, <- !app_assoc in Hrun; apply app_inv_head in Hrun; subst new.
  split.
  - rewrite !forallb_app, (no_bind_call_elsewhere SBuild), (no_bind_call_elsewhere SPublish),
      (no_bind_call_elsewhere SPackage), (no_bind_call_elsewhere SDeploy),
      (no_bind_call_elsewhere SInvalidate); auto; discriminate.
  - exists x; split; [rewrite !in_app_iff; auto|].
    destruct x as [ex|now]; auto.
    destruct Hc as [y Hy]; exists y; rewrite !in_app_iff; auto.
Qed.

(* ------------------------------------------------------------------ *)
(** ** Further properties of the code *)

Lemma string_app_assoc (a b c : string) : (a +++ b) +++ c = a +++ (b +++ c).
Proof. induction a as [|x a IH]; simpl; congruence. Qed.

Lemma s3_key_prefix_nonempty p : p <> "" -> s3_key_prefix p = p +++ "/".
Proof. destruct p; [congruence|reflexivity]. Qed.

Lemma append_nonempty_r (a b : string) : b <> "" -> a +++ b <> "".
Proof. destruct a; simpl; [auto|discriminate]. Qed.

Lemma plan_item_files mime bucket :
  forall item dir prefix,
    dir_names_nonempty item = true ->
    plan_item mime dir bucket prefix item =
    map (fun pk => {| Bucket := bucket; Key := prefix +++ snd pk;
                      Body := path_join dir (fst pk);
                      ContentType := match mime (path_join dir (fst pk)) with
                                     | Some t => t | None => "application/octet-stream" end |})
        (tree_files item).
Proof.
  refine (fs_entry_induction
    (fun item => forall dir prefix, dir_names_nonempty item = true ->
       plan_item mime dir bucket prefix item =
       map (fun pk => {| Bucket := bucket; Key := prefix +++ snd pk;
                         Body := path_join dir (fst pk);
                         ContentType := match mime (path_join dir (fst pk)) with
                                        | Some t => t | None => "application/octet-stream" end |})
           (tree_files item))
    (fun l => forall n dir prefix, n <> "" ->
       (fix walk (l : list fs_entry) : bool :=
          match l with [] => true | it :: rest => dir_names_nonempty it && walk rest end) l = true ->
       (fix walk (items : list fs_entry) : list PutObjectRequest :=
          match items with
          | [] => []
          | it :: rest =>
              plan_item mime (path_join dir n) bucket (s3_key_prefix (prefix +++ n)) it ++ walk rest
          end) l =
       map (fun pk => {| Bucket := bucket; Key := prefix +++ snd pk;
                         Body := path_join dir (fst pk);
                         ContentType := match mime (path_join dir (fst pk)) with
                                        | Some t => t | None => "application/octet-stream" end |})
           ((fix walk (l : list fs_entry) : list (string * string) :=
               match l with
               | [] => []
               | it :: rest =>
                   map (fun pk => (n +++ "/" +++ fst pk, n +++ "/" +++ snd pk)) (tree_files it)
                   ++ walk rest
               end) l))
    _ _ _ _ _).
  - intros n dir prefix _; reflexivity.
  - intros n ch IH dir prefix H; simpl in H.
    apply andb_prop in H as [Hn Hch].
    apply IH; auto.
    intros E; subst n; discriminate.
  - intros n dir prefix _; reflexivity.
  - intros; reflexivity.
  - intros e l IHe IHl n dir prefix Hn H.
    apply andb_prop in H as [He Hl].
    rewrite map_app, (IHl n dir prefix Hn Hl), (IHe _ _ He), map_map.
    f_equal. apply map_ext; intros [p k]; simpl.
    rewrite s3_key_prefix_nonempty by (apply append_nonempty_r; exact Hn).
    unfold path_join; rewrite !string_app_assoc; reflexivity.
Qed.

Lemma put_requests_blocks region plan blocks :
  Forall2 (upload_block region) plan blocks ->
  put_requests (concat blocks) = map (fun p => (region, p)) plan.
Proof.
  induction 1 as [|p blk plan blocks Hb _ IH]; [reflexivity|].
  destruct Hb as [x [y ->]]; unfold put_requests in *; simpl.
  rewrite IH; destruct x; reflexivity.
Qed.

(** X1: the [PutObject] calls of [uploadToS3], in order, are one per regular
    file of the walked trees, depth first.  Each has the given region and
    bucket; its key is the prefix (followed by ['/'] when not empty) and then
    the file's path, the directory names joined by ['/'] and the file name
    with its backslashes replaced; its body is the file's path under the
    directory; its content type is the MIME lookup of that path, or
    ["application/octet-stream"].  Every directory name is taken non-empty. *)
Theorem uploadToS3_puts mime (E : env) (tr0 : trace) dir items bucket s3Prefix region :
  forallb dir_names_nonempty items = true ->
  put_requests (snd (run E tr0 (uploadToS3 mime dir items bucket s3Prefix region))) =
  put_requests tr0 ++
  map (fun pk => (region,
                  {| Bucket := bucket; Key := s3_key_prefix s3Prefix +++ snd pk;
                     Body := path_join dir (fst pk);
                     ContentType := match mime (path_join dir (fst pk)) with
                                    | Some t => t | None => "application/octet-stream" end |}))
      (flat_map tree_files items).
Proof.
  intros Hd.
  pose proof (uploadToS3_runs mime E tr0 dir items bucket s3Prefix region) as H.
  destruct (run E tr0 _) as [r tr]; destruct H as [_ [blocks [-> Hb]]]; simpl.
  unfold put_requests at 1; rewrite flat_map_app; fold (put_requests tr0) (put_requests (concat blocks)).
  rewrite (put_requests_blocks _ _ _ Hb); f_equal.
  unfold upload_plan; clear Hb; induction items as [|it items IH]; [reflexivity|].
  simpl in Hd |- *; apply andb_prop in Hd as [H1 H2].
  rewrite map_app, (plan_item_files mime bucket it dir _ H1), map_app, map_map, IH by exact H2.
  reflexivity.
Qed.

(** Case analysis on every answer of the environment to a call that is not
    console output, reducing the run after each. *)
Ltac split_answers :=
  repeat (first
    [ match goal with |- context [?E ?r ?t] =>
        lazymatch type of E with
        | env =>
          lazymatch r with
          | ConsoleLog _ => fail
          | ConsoleError _ => fail
          | _ => destruct (E r t) eqn:?
          end
        end end
    | match goal with |- context [match ?x with _ => _ end] => destruct x eqn:? end ];
    simpl).

Ltac pick_case :=
  first [ left; solve [repeat eexists]
        | right; pick_case
        | solve [repeat eexists] ].

(** X2: apart from console output, [deployLambdaFunction] reads the archive,
    updates the function code with it, waits 5 seconds and publishes a
    version, in this order.  The first call that fails ends it, and it
    rejects with that call's error; when all succeed it resolves with the
    published version. *)
Theorem deployLambdaFunction_outcome (E : env) (t : trace) functionName zipFilePath region :
  exists new,
    snd (run E t (deployLambdaFunction functionName zipFilePath region)) = t ++ new /\
    let r := fst (run E t (deployLambdaFunction functionName zipFilePath region)) in
    (exists e, calls new = [Ev (ReadFileSync zipFilePath) (inl e)] /\ r = inl e) \/
    (exists z e, calls new = [Ev (ReadFileSync zipFilePath) (inr z);
                              Ev (UpdateFunctionCode region functionName z) (inl e)] /\ r = inl e) \/
    (exists z u e, calls new = [Ev (ReadFileSync zipFilePath) (inr z);
                                Ev (UpdateFunctionCode region functionName z) (inr u);
                                Ev (SetTimeout 5000) (inl e)] /\ r = inl e) \/
    (exists z u w e, calls new = [Ev (ReadFileSync zipFilePath) (inr z);
                                  Ev (UpdateFunctionCode region functionName z) (inr u);
                                  Ev (SetTimeout 5000) (inr w);
                                  Ev (PublishVersion region functionName) (inl e)] /\ r = inl e) \/
    (exists z u w v, calls new = [Ev (ReadFileSync zipFilePath) (inr z);
                                  Ev (UpdateFunctionCode region functionName z) (inr u);
                                  Ev (SetTimeout 5000) (inr w);
                                  Ev (PublishVersion region functionName) (inr v)] /\ r = inr v).
Proof.
  destruct (run_extends E t (deployLambdaFunction functionName zipFilePath region)) as [new Hnew].
  exists new; split; [exact Hnew|].
  revert Hnew; unfold deployLambdaFunction; simpl.
  split_answers; intros Hnew;
  repeat rewrite <- app_assoc in Hnew; simpl in Hnew; apply app_inv_head in Hnew; subst new;
  simpl; pick_case.
Qed.

(** X3: apart from console output, [invalidateCache] reads the clock and then
    asks for one invalidation of the given paths, with their count and the
    clock reading as caller reference.  It rejects with the error of the
    call that fails, and resolves when the invalidation is created. *)
Theorem invalidateCache_outcome (E : env) (t : trace) distributionId paths region :
  exists new,
    snd (run E t (invalidateCache distributionId paths region)) = t ++ new /\
    let r := fst (run E t (invalidateCache distributionId paths region)) in
    let params now := {| DistributionId := distributionId; PathsQuantity := length paths;
                         PathsItems := paths; InvalidationCallerReference := now |} in
    (exists e, calls new = [Ev DateNowISO (inl e)] /\ r = inl e) \/
    (exists now e, calls new = [Ev DateNowISO (inr now);
                                Ev (CreateInvalidation region (params now)) (inl e)] /\ r = inl e) \/
    (exists now res, calls new = [Ev DateNowISO (inr now);
                                  Ev (CreateInvalidation region (params now)) (inr res)] /\
                     r = inr tt).
Proof.
  destruct (run_extends E t (invalidateCache distributionId paths region)) as [new Hnew].
  exists new; split; [exact Hnew|].
  revert Hnew; unfold invalidateCache; simpl.
  split_answers; intros Hnew;
  repeat rewrite <- app_assoc in Hnew; simpl in Hnew; apply app_inv_head in Hnew; subst new;
  simpl; pick_case.
Qed.

(** X4: whenever [setupCloudFrontTrigger] rejects with an error [e], the last
    event of its run is the console error
    ["Failed to set up CloudFront trigger: " ++ e]. *)
Theorem setupCloudFrontTrigger_logs_failure (E : env) (t : trace) functionName functionVersion
    distributionId region :
  exists new,
    snd (run E t (setupCloudFrontTrigger functionName functionVersion distributionId region)) =
      t ++ new /\
    forall e,
      fst (run E t (setupCloudFrontTrigger functionName functionVersion distributionId region)) =
        inl e ->
      exists pre x, new = pre ++ [Ev (ConsoleError ("Failed to set up CloudFront trigger: " +++ e)) x].
Proof.
  destruct (run_extends E t (setupCloudFrontTrigger functionName functionVersion distributionId region))
    as [new Hnew].
  exists new; split; [exact Hnew|].
  revert Hnew; unfold setupCloudFrontTrigger; simpl.
  split_answers; intros Hnew e0 He;
  repeat rewrite <- app_assoc in Hnew; simpl in Hnew; apply app_inv_head in Hnew; subst new;
  try discriminate; injection He as <-;
  match goal with |- exists pre x, ?l = pre ++ [Ev ?r _] =>
    exists (removelast l); eexists; simpl; reflexivity end.
Qed.

(** X5: when [setupCloudFrontTrigger] writes the distribution, the write is
    its fourth call, after two reads of the distribution configuration and
    one read of the function configuration.  The configuration written is
    computed from the first read only, with the function ARN read and the
    version appended; the second read supplies only the ETag. *)
Theorem setupCloudFrontTrigger_writes_first_read (E : env) (t : trace) functionName functionVersion
    distributionId region :
  exists new,
    snd (run E t (setupCloudFrontTrigger functionName functionVersion distributionId region)) =
      t ++ new /\
    (existsb (fun e => is_update (projT1 e)) new = true ->
     exists got1 dc dcb fc got2 x rest,
       DistributionConfig_ got1 = Some dc /\ DefaultCacheBehavior_ dc = Some dcb /\
       new = Ev (GetDistributionConfig region distributionId) (inr got1)
             :: Ev (GetFunctionConfiguration region functionName) (inr fc)
             :: Ev (GetDistributionConfig region distributionId) (inr got2)
             :: Ev (UpdateDistribution region
                      {| Id := distributionId;
                         UpdatedConfig := updated_distribution_config dc dcb
                                            (js_str (FunctionArn fc) +++ ":" +++ functionVersion);
                         IfMatch := ETag got2 |}) x :: rest).
Proof.
  destruct (run_extends E t (setupCloudFrontTrigger functionName functionVersion distributionId region))
    as [new Hnew].
  exists new; split; [exact Hnew|].
  revert Hnew; unfold setupCloudFrontTrigger; simpl.
  split_answers; intros Hnew Hw;
  repeat rewrite <- app_assoc in Hnew; simpl in Hnew; apply app_inv_head in Hnew; subst new;
  simpl in Hw; try discriminate.
  all: do 7 eexists; split; [eassumption|]; split; [eassumption|]; reflexivity.
Qed.

(** X6: rewriting, for a second ARN, a configuration that
    [setupCloudFrontTrigger] already rewrote gives the same result as
    rewriting the original configuration for that ARN.  The association the
    first rewrite added leaves no trace. *)
Theorem updated_distribution_config_rebind dc dcb a1 a2 :
  match DefaultCacheBehavior_ (updated_distribution_config dc dcb a1) with
  | Some dcb1 =>
      updated_distribution_config (updated_distribution_config dc dcb a1) dcb1 a2 =
      updated_distribution_config dc dcb a2
  | None => False
  end.
Proof.
  assert (Hf : forall l a,
             filter not_origin_request
               (filter not_origin_request l ++
                [{| EventType := "origin-request"; LambdaFunctionARN := a; IncludeBody := None |}]) =
             filter not_origin_request l).
  { intros l a; rewrite filter_app, filter_not_origin_idem; simpl.
    unfold not_origin_request at 2; simpl; apply app_nil_r. }
  destruct dcb as [to vpp [[q [items|]]|]]; unfold updated_distribution_config;
    cbn -[filter not_origin_request];
    rewrite ?Hf; reflexivity.
Qed.

(** X7: apart from console output, [bundleApp] removes ["build"], bundles the
    Lambda handler into it, checks for ["out/prerendered"] and copies that
    directory only when it exists.  The first call that fails ends it with
    that call's error; otherwise it resolves. *)
Theorem bundleApp_outcome (E : env) (t : trace) :
  exists new,
    snd (run E t bundleApp) = t ++ new /\
    let r := fst (run E t bundleApp) in
    (exists e, calls new = [Ev (Rm "build") (inl e)] /\ r = inl e) \/
    (exists u e, calls new = [Ev (Rm "build") (inr u);
                              Ev (EsBuild "out/server/lambda-handler/index.js" "build") (inl e)] /\
                 r = inl e) \/
    (exists u v e, calls new = [Ev (Rm "build") (inr u);
                                Ev (EsBuild "out/server/lambda-handler/index.js" "build") (inr v);
                                Ev (ExistsSync "out/prerendered") (inl e)] /\ r = inl e) \/
    (exists u v e, calls new = [Ev (Rm "build") (inr u);
                                Ev (EsBuild "out/server/lambda-handler/index.js" "build") (inr v);
                                Ev (ExistsSync "out/prerendered") (inr true);
                                Ev (Cp "out/prerendered" "build/prerendered") (inl e)] /\ r = inl e) \/
    (exists u v w, calls new = [Ev (Rm "build") (inr u);
                                Ev (EsBuild "out/server/lambda-handler/index.js" "build") (inr v);
                                Ev (ExistsSync "out/prerendered") (inr true);
                                Ev (Cp "out/prerendered" "build/prerendered") (inr w)] /\
                   r = inr tt) \/
    (exists u v, calls new = [Ev (Rm "build") (inr u);
                              Ev (EsBuild "out/server/lambda-handler/index.js" "build") (inr v);
                              Ev (ExistsSync "out/prerendered") (inr false)] /\ r = inr tt).
Proof.
  destruct (run_extends E t bundleApp) as [new Hnew].
  exists new; split; [exact Hnew|].
  revert Hnew; unfold bundleApp; simpl.
  split_answers; intros Hnew;
  repeat rewrite <- app_assoc in Hnew; simpl in Hnew; apply app_inv_head in Hnew; subst new;
  simpl; pick_case.
Qed.

Lemma basename_from_no_slash n acc : no_slash n = true -> basename_from n acc = acc +++ n.
Proof.
  revert acc; induction n as [|c n IH]; intros acc H; simpl in *.
  - destruct acc; simpl; [reflexivity|]. f_equal. induction acc; simpl; congruence.
  - apply andb_prop in H as [Hc Hn]; apply negb_true_iff in Hc; rewrite Hc, IH by exact Hn.
    clear; induction acc as [|a acc IH]; simpl; congruence.
Qed.

Lemma all_slashes_app a b : all_slashes (a +++ b) = all_slashes a && all_slashes b.
Proof. induction a as [|c a IH]; simpl; [reflexivity|]. rewrite IH, andb_assoc; reflexivity. Qed.

Lemma basename_from_slash a n acc :
  all_slashes n = false -> basename_from (a +++ "/" +++ n) acc = basename_from n EmptyString.
Proof.
  intros Hn; revert acc; induction a as [|c a IH]; intros acc; simpl; [rewrite Hn; reflexivity|].
  destruct (Ascii.eqb c slash); [|apply IH].
  rewrite all_slashes_app; simpl; rewrite Hn, !andb_false_r; apply IH.
Qed.

Lemma no_slash_all_slashes n : no_slash n = true -> n <> "" -> all_slashes n = false.
Proof.
  destruct n as [|c n]; [congruence|]; simpl; intros H _.
  apply andb_prop in H as [Hc _]; apply negb_true_iff in Hc; rewrite Hc; reflexivity.
Qed.

(** X8: [zipDirectory source (source/name)] with a non-empty [name] that has
    no ['/'] makes, apart from console output, a single call: the archive of
    [source] into [source/name] that leaves out the entry [name] (the
    archive itself).  It resolves or rejects as that call does. *)
Theorem zipDirectory_outcome (E : env) (t : trace) source name :
  no_slash name = true -> name <> "" ->
  exists new,
    snd (run E t (zipDirectory source (source +++ "/" +++ name))) = t ++ new /\
    exists x, calls new = [Ev (ArchiveDirectory source (source +++ "/" +++ name) [name]) x] /\
              fst (run E t (zipDirectory source (source +++ "/" +++ name))) = x.
Proof.
  intros Hn Hne.
  assert (Hb : basename (source +++ "/" +++ name) = name).
  { unfold basename; rewrite basename_from_slash by (apply no_slash_all_slashes; assumption).
    rewrite basename_from_no_slash by exact Hn; reflexivity. }
  unfold zipDirectory, send; rewrite Hb; simpl.
  match goal with |- context [E (ArchiveDirectory ?a ?b ?c) ?t'] =>
    destruct (E (ArchiveDirectory a b c) t') as [e|[]] end; simpl;
  (eexists; split; [rewrite <- app_assoc; reflexivity|]);
  eexists; split; reflexivity.
Qed.

Lemma deepMerge_objects fuel h t s :
  deepMerge (S fuel) h (JRef t) (JRef s) = merge_keys fuel t s (obj_keys h s) h.
Proof.
  simpl. generalize (obj_keys h s) as keys. generalize h as hc.
  intros hc keys; revert hc; induction keys as [|k keys IH]; intros hc; simpl; [reflexivity|].
  destruct (isObject (get_prop hc t k) && isObject (get_prop hc s k)); [|apply IH].
  destruct (object_assign_empty hc (get_prop hc t k)) as [h1 copy].
  destruct (deepMerge fuel h1 copy (get_prop hc s k)); [apply IH|reflexivity].
Qed.

Lemma deepMerge_ok_target fuel h target source h' v :
  deepMerge fuel h target source = MOk h' v -> v = target.
Proof.
  destruct fuel as [|fuel]; simpl; [discriminate|].
  destruct target as [| | | | |t]; simpl; try discriminate.
  destruct source as [| | | | |s]; simpl; try discriminate.
  change (deepMerge (S fuel) h (JRef t) (JRef s) = MOk h' v -> v = JRef t).
  rewrite deepMerge_objects; generalize (obj_keys h s) as keys; generalize h.
  intros hc keys; revert hc; induction keys as [|k keys IH]; intros hc; simpl.
  - congruence.
  - destruct (isObject (get_prop hc t k) && isObject (get_prop hc s k)); [|apply IH].
    destruct (object_assign_empty hc (get_prop hc t k)) as [h1 copy].
    destruct (deepMerge fuel h1 copy (get_prop hc s k)); [apply IH|discriminate].
Qed.

Lemma heap_update_length h l f : length (heap_update h l f) = length h.
Proof. revert l; induction h as [|o h IH]; intros [|l]; simpl; auto. Qed.

Lemma heap_update_other h l f l' : l' <> l -> nth_error (heap_update h l f) l' = nth_error h l'.
Proof.
  revert l l'; induction h as [|o h IH]; intros [|l] [|l'] H; simpl; auto; try congruence.
Qed.

Lemma heap_update_same h l f : nth_error (heap_update h l f) l = option_map f (nth_error h l).
Proof. revert l; induction h as [|o h IH]; intros [|l]; simpl; auto. Qed.

Lemma heap_frame_refl t h : heap_frame t h h.
Proof. split; auto. Qed.

Lemma heap_frame_set t h hc key v :
  heap_frame t h hc -> heap_frame t h (set_prop hc t key v).
Proof.
  intros [Hl Hn]; unfold set_prop; split.
  - rewrite heap_update_length; exact Hl.
  - intros l Hlt Hne; rewrite heap_update_other by exact Hne; auto.
Qed.

Lemma heap_frame_copy t h hc o h2 :
  heap_frame t h hc -> heap_frame (length hc) (hc ++ [o]) h2 -> heap_frame t h h2.
Proof.
  intros [Hl Hn] [Hl2 Hn2]; rewrite length_app in Hl2; simpl in Hl2; split; [lia|].
  intros l Hlt Hne.
  rewrite Hn2 by (rewrite ?length_app; simpl; lia).
  rewrite nth_error_app1 by lia; auto.
Qed.

Lemma object_assign_empty_alloc h v :
  exists o, object_assign_empty h v = (h ++ [o], JRef (length h)).
Proof. destruct v; eexists; reflexivity. Qed.

Lemma deepMerge_heap_frame fuel h t source :
  heap_frame t h (merge_heap (deepMerge fuel h (JRef t) source)).
Proof.
  revert h t source; induction fuel as [|fuel IHf]; intros h t source.
  - apply heap_frame_refl.
  - destruct source as [| | | | |s]; try apply heap_frame_refl.
    rewrite deepMerge_objects.
    assert (H0 := heap_frame_refl t h); revert H0.
    generalize (obj_keys h s) as keys; generalize h at 2 4 as hc.
    intros hc keys; revert hc; induction keys as [|k keys IH]; intros hc Hc; simpl; [exact Hc|].
    destruct (isObject (get_prop hc t k) && isObject (get_prop hc s k)).
    + destruct (object_assign_empty_alloc hc (get_prop hc t k)) as [o Ho]; rewrite Ho.
      pose proof (IHf (hc ++ [o]) (length hc) (get_prop hc s k)) as Hr.
      destruct (deepMerge fuel (hc ++ [o]) (JRef (length hc)) (get_prop hc s k)) as [h2 v|h2 e];
        simpl in Hr.
      * apply IH, heap_frame_set, (heap_frame_copy _ _ _ _ _ Hc Hr).
      * exact (heap_frame_copy _ _ _ _ _ Hc Hr).
    + apply IH, heap_frame_set, Hc.
Qed.

(** X10: [deepMerge] into the target object at [t] changes no object of the
    heap except the one at [t].  The source and the nested objects of the
    target stay as they were, since nested merges work on fresh copies; new
    objects are only added after the existing ones.  This holds also when
    it throws. *)
Theorem deepMerge_frame fuel h t source :
  heap_frame t h (merge_heap (deepMerge fuel h (JRef t) source)).
Proof. apply deepMerge_heap_frame. Qed.

Lemma obj_get_set_other o key k v : key <> k -> obj_get (obj_set o key v) k = obj_get o k.
Proof.
  intros Hne; induction o as [|[k' w] o IH]; unfold obj_get in *; simpl.
  - destruct (String.eqb_spec key k); congruence.
  - destruct (String.eqb_spec k' key) as [->|Hk']; simpl.
    + destruct (String.eqb_spec key k); congruence.
    + destruct (String.eqb k' k); [reflexivity|exact IH].
Qed.

Lemma obj_get_set_same o k v : obj_get (obj_set o k v) k = v.
Proof.
  induction o as [|[k' w] o IH]; unfold obj_get in *; simpl.
  - rewrite String.eqb_refl; reflexivity.
  - destruct (String.eqb_spec k' k) as [->|Hk']; simpl.
    + rewrite String.eqb_refl; reflexivity.
    + apply String.eqb_neq in Hk'; rewrite Hk'; exact IH.
Qed.

Lemma heap_obj_set_prop h t key v l :
  heap_obj (set_prop h t key v) l =
  if Nat.eqb l t then (if Nat.ltb t (length h) then obj_set (heap_obj h t) key v else heap_obj h t)
  else heap_obj h l.
Proof.
  unfold heap_obj, set_prop.
  destruct (Nat.eqb_spec l t) as [->|Hne].
  - rewrite heap_update_same.
    destruct (Nat.ltb_spec t (length h)) as [Hlt|Hge].
    + destruct (nth_error h t) eqn:E; [reflexivity|].
      apply nth_error_None in E; lia.
    + assert (E : nth_error h t = None) by (apply nth_error_None; lia); rewrite E; reflexivity.
  - rewrite heap_update_other by exact Hne; reflexivity.
Qed.

Lemma get_prop_set_other h t key k v : key <> k -> get_prop (set_prop h t key v) t k = get_prop h t k.
Proof.
  intros Hne; unfold get_prop; rewrite heap_obj_set_prop, Nat.eqb_refl.
  destruct (Nat.ltb t (length h)); [apply obj_get_set_other; exact Hne|reflexivity].
Qed.

Lemma get_prop_set_same h t k v : t < length h -> get_prop (set_prop h t k v) t k = v.
Proof.
  intros Hlt; unfold get_prop; rewrite heap_obj_set_prop, Nat.eqb_refl.
  apply Nat.ltb_lt in Hlt; rewrite Hlt; apply obj_get_set_same.
Qed.

Lemma get_prop_frame t h h' l k :
  heap_frame t h h' -> l < length h -> l <> t -> get_prop h' l k = get_prop h l k.
Proof. intros [_ Hn] Hl Hne; unfold get_prop, heap_obj; rewrite Hn by assumption; reflexivity. Qed.

Lemma set_prop_length h t key v : length (set_prop h t key v) = length h.
Proof. apply heap_update_length. Qed.

Lemma heap_frame_trans t h1 h2 h3 :
  heap_frame t h1 h2 -> heap_frame t h2 h3 -> heap_frame t h1 h3.
Proof.
  intros [L1 N1] [L2 N2]; split; [lia|].
  intros l Hl Hne; rewrite N2 by (lia || assumption); auto.
Qed.

Lemma merge_keys_frame fuel t s keys hc :
  heap_frame t hc (merge_heap (merge_keys fuel t s keys hc)).
Proof.
  assert (H0 := heap_frame_refl t hc); revert H0.
  generalize hc at 2 4 as h0.
  intros h0; revert h0; induction keys as [|k keys IH]; intros h0 Hc; simpl; [exact Hc|].
  destruct (isObject (get_prop h0 t k) && isObject (get_prop h0 s k)).
  - destruct (object_assign_empty_alloc h0 (get_prop h0 t k)) as [o Ho]; rewrite Ho.
    pose proof (deepMerge_heap_frame fuel (h0 ++ [o]) (length h0) (get_prop h0 s k)) as Hr.
    destruct (deepMerge fuel (h0 ++ [o]) (JRef (length h0)) (get_prop h0 s k)) as [h2 v|h2 e];
      simpl in Hr.
    + apply IH, heap_frame_set, (heap_frame_copy _ _ _ _ _ Hc Hr).
    + exact (heap_frame_copy _ _ _ _ _ Hc Hr).
  - apply IH, heap_frame_set, Hc.
Qed.

(** The property [k] of the target is left alone by the keys that are not [k]. *)
Lemma merge_keys_keeps fuel t s keys hc k :
  t < length hc -> ~ In k keys ->
  get_prop (merge_heap (merge_keys fuel t s keys hc)) t k = get_prop hc t k.
Proof.
  revert hc; induction keys as [|key keys IH]; intros hc Ht Hk; simpl; [reflexivity|].
  assert (Hne : key <> k) by (intros ->; apply Hk; left; reflexivity).
  assert (Hk' : ~ In k keys) by (intros H; apply Hk; right; exact H).
  destruct (isObject (get_prop hc t key) && isObject (get_prop hc s key)).
  - destruct (object_assign_empty_alloc hc (get_prop hc t key)) as [o Ho]; rewrite Ho.
    pose proof (deepMerge_heap_frame fuel (hc ++ [o]) (length hc) (get_prop hc s key)) as Hr.
    assert (Hhc : get_prop (hc ++ [o]) t k = get_prop hc t k).
    { unfold get_prop, heap_obj; rewrite nth_error_app1 by exact Ht; reflexivity. }
    destruct (deepMerge fuel (hc ++ [o]) (JRef (length hc)) (get_prop hc s key)) as [h2 v|h2 e];
      simpl in Hr.
    + assert (Hlen : t < length h2) by (destruct Hr as [L _]; rewrite length_app in L; simpl in L; lia).
      rewrite IH by (rewrite ?set_prop_length; assumption).
      rewrite get_prop_set_other by exact Hne.
      rewrite (get_prop_frame _ _ _ _ _ Hr) by (rewrite ?length_app; simpl; lia); exact Hhc.
    + simpl; rewrite (get_prop_frame _ _ _ _ _ Hr) by (rewrite ?length_app; simpl; lia); exact Hhc.
  - rewrite IH by (rewrite ?set_prop_length; assumption).
    apply get_prop_set_other; exact Hne.
Qed.

(** X11: a property of the target whose key is not an own key of the source
    keeps its value through [deepMerge], whether it returns or throws. *)
Theorem deepMerge_keeps_absent_keys fuel h t s k :
  t < length h -> ~ In k (obj_keys h s) ->
  get_prop (merge_heap (deepMerge fuel h (JRef t) (JRef s))) t k = get_prop h t k.
Proof.
  intros Ht Hk; destruct fuel as [|fuel]; [reflexivity|].
  rewrite deepMerge_objects; apply merge_keys_keeps; assumption.
Qed.

Lemma merge_keys_app fuel t s pre post hc :
  merge_keys fuel t s (pre ++ post) hc =
  match merge_keys fuel t s pre hc with
  | MOk h' _ => merge_keys fuel t s post h'
  | MThrow h' e => MThrow h' e
  end.
Proof.
  revert hc; induction pre as [|key pre IH]; intros hc; simpl; [reflexivity|].
  destruct (isObject (get_prop hc t key) && isObject (get_prop hc s key)); [|apply IH].
  destruct (object_assign_empty hc (get_prop hc t key)) as [h1 copy].
  destruct (deepMerge fuel h1 copy (get_prop hc s key)); [apply IH|reflexivity].
Qed.

(** X12: the value [deepMerge] leaves for a key of the source, when target
    and source are different objects, the source's keys are distinct and
    none of them names a property of [Object.prototype].  When both old values are objects, the key gets a newly allocated
    object (the merge of a copy of the old target value).  Otherwise it
    gets the source value when that is truthy, and keeps the target value
    when not. *)
Theorem deepMerge_key_rule fuel h t s k :
  t < length h -> s < length h -> t <> s ->
  NoDup (obj_keys h s) -> In k (obj_keys h s) ->
  forallb (fun key => negb (inherited_key key)) (obj_keys h s) = true ->
  match deepMerge (S fuel) h (JRef t) (JRef s) with
  | MOk h' _ =>
      if isObject (get_prop h t k) && isObject (get_prop h s k)
      then exists l, get_prop h' t k = JRef l /\ length h <= l
      else get_prop h' t k = if truthy (get_prop h s k) then get_prop h s k else get_prop h t k
  | MThrow _ _ => True
  end.
Proof.
  intros Ht Hs Hts Hnd Hin _.
  rewrite deepMerge_objects.
  destruct (in_split _ _ Hin) as (pre & post & Hkeys).
  rewrite Hkeys in Hnd; rewrite Hkeys, merge_keys_app.
  assert (Hpre : ~ In k pre) by (intros H; apply (NoDup_remove_2 _ _ _ Hnd), in_or_app; left; exact H).
  assert (Hpost : ~ In k post) by (intros H; apply (NoDup_remove_2 _ _ _ Hnd), in_or_app; right; exact H).
  pose proof (merge_keys_frame fuel t s pre h) as Hf1.
  pose proof (merge_keys_keeps fuel t s pre h k Ht Hpre) as Hk1.
  destruct (merge_keys fuel t s pre h) as [h1 v1|h1 e1]; [|exact I].
  simpl in Hf1, Hk1.
  assert (Hs1 : get_prop h1 s k = get_prop h s k) by (apply (get_prop_frame _ _ _ _ _ Hf1); [exact Hs|congruence]).
  assert (Ht1 : t < length h1) by (destruct Hf1; lia).
  simpl; rewrite Hk1, Hs1.
  destruct (isObject (get_prop h t k) && isObject (get_prop h s k)).
  - destruct (object_assign_empty_alloc h1 (get_prop h t k)) as [o Ho]; rewrite Ho.
    pose proof (deepMerge_heap_frame fuel (h1 ++ [o]) (length h1) (get_prop h s k)) as Hf2.
    destruct (deepMerge fuel (h1 ++ [o]) (JRef (length h1)) (get_prop h s k)) as [h2 v|h2 e] eqn:Em;
      [|exact I].
    apply deepMerge_ok_target in Em; subst v.
    simpl in Hf2.
    assert (Ht2 : t < length h2) by (destruct Hf2 as [L _]; rewrite length_app in L; simpl in L; lia).
    pose proof (merge_keys_keeps fuel t s post (set_prop h2 t k (JRef (length h1))) k) as Hk3.
    rewrite set_prop_length in Hk3; specialize (Hk3 Ht2 Hpost).
    destruct (merge_keys fuel t s post (set_prop h2 t k (JRef (length h1)))) as [h3 v3|h3 e3];
      [|exact I].
    simpl in Hk3; rewrite get_prop_set_same in Hk3 by exact Ht2.
    exists (length h1); split; [exact Hk3|destruct Hf1; lia].
  - set (v := if truthy (get_prop h s k) then get_prop h s k else get_prop h t k).
    pose proof (merge_keys_keeps fuel t s post (set_prop h1 t k v) k) as Hk3.
    rewrite set_prop_length in Hk3; specialize (Hk3 Ht1 Hpost).
    destruct (merge_keys fuel t s post (set_prop h1 t k v)) as [h3 v3|h3 e3]; [|exact I].
    simpl in Hk3; rewrite get_prop_set_same in Hk3 by exact Ht1; exact Hk3.
Qed.

Lemma deepMerge_non_object fuel h target source :
  isObject target = false \/ isObject source = false ->
  deepMerge (S fuel) h target source = MThrow h invalid_arguments_error.
Proof.
  intros Hno; simpl.
  destruct Hno as [Hn|Hn]; rewrite Hn; [reflexivity|rewrite orb_true_r; reflexivity].
Qed.

(** X13: when the default or the user configuration is not an object, [adapt]
    leaves the heap as it was.  Its run logs ["Building..."] and then
    rejects with the invalid-arguments error, with no other call. *)
Theorem adapt_rejects_non_object mime dirname h dflt input client (E : env) (tr0 : trace) :
  isObject dflt = false \/ isObject input = false ->
  fst (adapt mime dirname h dflt input client) = h /\
  run E tr0 (snd (adapt mime dirname h dflt input client)) =
    (inl invalid_arguments_error,
     tr0 ++ [Ev (ConsoleLog "Building...") (E (ConsoleLog "Building...") tr0)]).
Proof.
  intros Hno.
  unfold adapt, adapt_config; rewrite (deepMerge_non_object 999) by exact Hno; split; reflexivity.
Qed.

Lemma no_after_deploy_call_elsewhere s l :
  Forall (in_stage s) l -> s <> SBind -> s <> SInvalidate ->
  forallb (fun e => negb (is_after_deploy_call (projT1 e))) l = true.
Proof.
  intros F H1 H2; induction F as [|e l He F IH]; simpl; auto.
  rewrite IH, andb_true_r; unfold is_after_deploy_call.
  destruct He as [H|H]; rewrite H; [reflexivity|destruct s; simpl; congruence].
Qed.

Lemma deploy_resolves (E : env) (t : trace) fn zip region :
  exists sd,
    snd (run E t (deployLambdaFunction fn zip region)) = t ++ sd /\
    Forall (in_stage SDeploy) sd /\
    (forall v, fst (run E t (deployLambdaFunction fn zip region)) = inr v ->
               first_some publish_answer sd = Some (inr v)).
Proof.
  destruct (run_only _ E t _ (deploy_only fn zip region)) as [sd [Hs Fs]].
  exists sd; split; [exact Hs|]; split; [exact Fs|].
  intros v; revert Hs; unfold deployLambdaFunction; simpl.
  repeat (first
    [ match goal with |- context [E ?r ?t] =>
        lazymatch r with
        | ConsoleLog _ => fail
        | ConsoleError _ => fail
        | _ => destruct (E r t) eqn:?
        end end
    | match goal with |- context [match ?x with _ => _ end] => destruct x eqn:? end ];
    simpl);
  intros Hs Hv; repeat rewrite <- app_assoc in Hs; simpl in Hs; apply app_inv_head in Hs; subst sd;
  simpl; congruence.
Qed.

(** X14: when the [PublishVersion] call of an [adapt] run does not succeed
    (it fails, or the run never reaches it), the run rejects.  It makes no
    trigger-binding call and no invalidation call.  A success without a
    [Version] is a success here; that case is C9's. *)
Theorem adapt_rejects_unless_published mime dirname config client (E : env) (tr0 new : trace) :
  snd (run E tr0 (adapt_pipeline mime dirname config client)) = tr0 ++ new ->
  (forall v, first_some publish_answer new <> Some (inr v)) ->
  (exists e, fst (run E tr0 (adapt_pipeline mime dirname config client)) = inl e) /\
  forallb (fun e => negb (is_after_deploy_call (projT1 e))) new = true.
Proof.
  unfold adapt_pipeline.
  seg_step (build_stage_only dirname) sb Fb H.
  destruct H as [[e H]|[u H]]; rewrite H; intros Hrun Hpub.
  { simpl in Hrun |- *; apply app_inv_head in Hrun; subst new; split; [eauto|].
    apply (no_after_deploy_call_elsewhere SBuild); auto; discriminate. }
  seg_step (uploadToS3_only mime "out/client" client (bucketName (s3 config))
              (prefix (s3 config)) (s3_region (s3 config))) sp Fp H1.
  destruct H1 as [[e H1]|[u1 H1]]; rewrite H1 in Hrun |- *.
  { simpl in Hrun |- *; rewrite <- app_assoc in Hrun; apply app_inv_head in Hrun; subst new; split; [eauto|].
    rewrite forallb_app, (no_after_deploy_call_elsewhere SBuild), (no_after_deploy_call_elsewhere SPublish);
      auto; discriminate. }
  rewrite run_bind in Hrun |- *.
  destruct (package_stage_resolves E ((tr0 ++ sb) ++ sp)) as [sa [H2 Fa]]; rewrite H2 in Hrun |- *.
  rewrite run_bind in Hrun |- *.
  destruct (deploy_resolves E (((tr0 ++ sb) ++ sp) ++ sa) (functionName (lambda config))
              ("build" +++ "/lambda.zip") (lambda_region (lambda config))) as [sd [Hd [Fd Hv]]].
  destruct (run E _ (deployLambdaFunction _ _ _)) as [[e2|v] t3]; simpl in Hd, Hv; subst t3.
  - simpl in Hrun |- *; rewrite <- !app_assoc in Hrun; apply app_inv_head in Hrun; subst new.
    split; [eauto|].
    rewrite !forallb_app, (no_after_deploy_call_elsewhere SBuild), (no_after_deploy_call_elsewhere SPublish),
      (no_after_deploy_call_elsewhere SPackage), (no_after_deploy_call_elsewhere SDeploy); auto; discriminate.
  - exfalso.
    destruct (run_extends E ((((tr0 ++ sb) ++ sp) ++ sa) ++ sd) (after_deploy config v)) as [s Hs].
    rewrite Hs, <- !app_assoc in Hrun; apply app_inv_head in Hrun; subst new.
    apply (Hpub v).
    rewrite !first_some_app, (first_some_publish_elsewhere SBuild sb), (first_some_publish_elsewhere SPublish sp),
      (first_some_publish_elsewhere SPackage sa), (Hv v eq_refl); auto; discriminate.
Qed.

Lemma setup_resolves (E : env) (t : trace) fn ver id region :
  exists st,
    snd (run E t (setupCloudFrontTrigger fn ver id region)) = t ++ st /\
    Forall (in_stage SBind) st /\
    (fst (run E t (setupCloudFrontTrigger fn ver id region)) = inr tt ->
     exists u y, In (Ev (UpdateDistribution region u) (inr y)) st /\ Id u = id).
Proof.
  destruct (run_only _ E t _ (setup_only fn ver id region)) as [st [Hs Fs]].
  exists st; split; [exact Hs|]; split; [exact Fs|].
  revert Hs; unfold setupCloudFrontTrigger; simpl.
  repeat (first
    [ match goal with |- context [E ?r ?t] =>
        lazymatch r with
        | ConsoleLog _ => fail
        | ConsoleError _ => fail
        | _ => destruct (E r t) eqn:?
        end end
    | match goal with |- context [match ?x with _ => _ end] => destruct x eqn:? end ];
    simpl);
  intros Hs Hv; repeat rewrite <- app_assoc in Hs; simpl in Hs; apply app_inv_head in Hs; subst st;
  try discriminate.
  do 2 eexists; split; [solve [repeat (first [left; reflexivity | right])] | reflexivity].
Qed.

Lemma no_clock_read_elsewhere s l x :
  Forall (in_stage s) l -> s <> SInvalidate -> ~ In (Ev DateNowISO x) l.
Proof.
  intros F Hs Hin; rewrite Forall_forall in F.
  destruct (F _ Hin) as [H|H]; simpl in H; congruence.
Qed.

(** X15: when an [adapt] run starts the cache invalidation (it reads the
    clock), either the published version was undefined, or the run holds
    an accepted [UpdateDistribution] call for the configured distribution
    in the configured CloudFront region. *)
Theorem adapt_invalidates_only_after_binding mime dirname config client
    (E : env) (tr0 new : trace) x :
  snd (run E tr0 (adapt_pipeline mime dirname config client)) = tr0 ++ new ->
  In (Ev DateNowISO x) new ->
  first_some publish_answer new = Some (inr None) \/
  exists u y, In (Ev (UpdateDistribution (cloudfront_region (cloudfront config)) u) (inr y)) new /\
              Id u = distributionId (cloudfront config).
Proof.
  intros Hrun Hx; unfold adapt_pipeline in Hrun.
  seg_step_in Hrun (build_stage_only dirname) sb Fb H.
  destruct H as [[e1 H]|[u H]]; rewrite H in Hrun.
  { simpl in Hrun; apply app_inv_head in Hrun; subst new.
    exfalso; apply (no_clock_read_elsewhere SBuild sb x Fb); [discriminate|exact Hx]. }
  seg_step_in Hrun (uploadToS3_only mime "out/client" client (bucketName (s3 config))
              (prefix (s3 config)) (s3_region (s3 config))) sp Fp H1.
  destruct H1 as [[e1 H1]|[u1 H1]]; rewrite H1 in Hrun.
  { simpl in Hrun; rewrite <- app_assoc in Hrun; apply app_inv_head in Hrun; subst new.
    exfalso; apply in_app_iff in Hx; destruct Hx as [Hx|Hx];
      [apply (no_clock_read_elsewhere SBuild sb x Fb)|apply (no_clock_read_elsewhere SPublish sp x Fp)];
      first [discriminate|exact Hx]. }
  rewrite run_bind in Hrun.
  destruct (package_stage_resolves E ((tr0 ++ sb) ++ sp)) as [sa [H2 Fa]]; rewrite H2 in Hrun.
  rewrite run_bind in Hrun.
  destruct (deploy_resolves E (((tr0 ++ sb) ++ sp) ++ sa) (functionName (lambda config))
              ("build" +++ "/lambda.zip") (lambda_region (lambda config))) as [sd [Hd [Fd Hv]]].
  destruct (run E _ (deployLambdaFunction _ _ _)) as [[e2|v] t3]; simpl in Hd, Hv; subst t3.
  { simpl in Hrun; rewrite <- !app_assoc in Hrun; apply app_inv_head in Hrun; subst new.
    exfalso; rewrite !in_app_iff in Hx; destruct Hx as [Hx|[Hx|[Hx|Hx]]];
      [apply (no_clock_read_elsewhere SBuild sb x Fb)|apply (no_clock_read_elsewhere SPublish sp x Fp)
      |apply (no_clock_read_elsewhere SPackage sa x Fa)|apply (no_clock_read_elsewhere SDeploy sd x Fd)];
      first [discriminate|exact Hx]. }
  assert (Pb := first_some_publish_elsewhere SBuild sb Fb ltac:(discriminate)).
  assert (Pp := first_some_publish_elsewhere SPublish sp Fp ltac:(discriminate)).
  assert (Pa := first_some_publish_elsewhere SPackage sa Fa ltac:(discriminate)).
  specialize (Hv v eq_refl).
  destruct v as [ver|].
  - unfold after_deploy in Hrun; cbv beta iota in Hrun; rewrite run_bind in Hrun.
    destruct (setup_resolves E ((((tr0 ++ sb) ++ sp) ++ sa) ++ sd) (functionName (lambda config)) ver
                (distributionId (cloudfront config)) (cloudfront_region (cloudfront config)))
      as [st [Hst [Fst Hok]]].
    destruct (run E _ (setupCloudFrontTrigger _ _ _ _)) as [[e3|[]] t4]; simpl in Hst, Hok; subst t4.
    + simpl in Hrun; rewrite <- !app_assoc in Hrun; apply app_inv_head in Hrun; subst new.
      exfalso; rewrite !in_app_iff in Hx; destruct Hx as [Hx|[Hx|[Hx|[Hx|Hx]]]];
        [apply (no_clock_read_elsewhere SBuild sb x Fb)|apply (no_clock_read_elsewhere SPublish sp x Fp)
        |apply (no_clock_read_elsewhere SPackage sa x Fa)|apply (no_clock_read_elsewhere SDeploy sd x Fd)
        |apply (no_clock_read_elsewhere SBind st x Fst)];
        first [discriminate|exact Hx].
    + destruct (Hok eq_refl) as (ud & y & Hin & Hid).
      destruct (run_extends E (((((tr0 ++ sb) ++ sp) ++ sa) ++ sd) ++ st)
                  (invalidateCache (distributionId (cloudfront config)) ["/*"]
                     (cloudfront_region (cloudfront config)))) as [s Hs].
      cbv beta iota in Hrun; rewrite Hs, <- !app_assoc in Hrun; apply app_inv_head in Hrun; subst new.
      right; exists ud, y; split; [rewrite !in_app_iff; auto 6|exact Hid].
  - left.
    destruct (run_extends E ((((tr0 ++ sb) ++ sp) ++ sa) ++ sd) (after_deploy config None)) as [s Hs].
    rewrite Hs, <- !app_assoc in Hrun; apply app_inv_head in Hrun; subst new.
    rewrite !first_some_app, Pb, Pp, Pa, Hv; reflexivity.
Qed.

(* ------------------------------------------------------------------ *)
(** ** Concrete runs *)

(** C5, a concrete run of [adapt]: the first asset upload (call 14) comes
    before the archive creation (call 19). *)
Lemma adapt_uploads_before_archive_example :
  let tr := snd (sample_adapt (cloud_env (sample_world true)) sample_config) in
  index_where (fun e => is_put (projT1 e)) tr = Some 14 /\
  index_where (fun e => is_archive (projT1 e)) tr = Some 19.
Proof. vm_compute; split; reflexivity. Qed.

(** C6, a concrete run of [adapt] whose archive creation fails: the run
    still resolves, updates the function code and binds the trigger. *)
Lemma adapt_deploys_after_archive_failure_example :
  let (r, tr) := sample_adapt (cloud_env (sample_world false)) sample_config in
  r = inr tt /\
  first_some archive_answer tr = Some (inl "Error: EACCES") /\
  existsb (fun e => match projT1 e with UpdateFunctionCode _ _ _ => true | _ => false end) tr = true /\
  existsb (fun e => is_update (projT1 e)) tr = true.
Proof. vm_compute; repeat split. Qed.

(** C8, the merge of a user configuration whose bucket name is the empty
    string: the merged bucket name is the empty string. *)
Lemma adapt_config_keeps_empty_bucket_example :
  sample_merged {| s3 := {| bucketName := ""; prefix := "assets"; s3_region := "eu-west-1" |};
                   lambda := lambda sample_config; cloudfront := cloudfront sample_config |} =
  inr {| s3 := {| bucketName := ""; prefix := "assets"; s3_region := "eu-west-1" |};
         lambda := {| functionName := "svelte-ssr"; lambda_region := "us-east-1" |};
         cloudfront := {| distributionId := "E1"; cloudfront_region := "us-east-1" |} |}.
Proof. vm_compute; reflexivity. Qed.

Lemma setupCloudFrontTrigger_replaces_by_event_type_witness :
  lookup "E1" (w_dists (sample_world true)) = Some (sample_dc, "ETAG1") /\
  DefaultCacheBehavior_ sample_dc = Some sample_dcb /\
  lookup "svelte-ssr" (w_functions (sample_world true)) = Some sample_arn /\
  length (filter is_origin_request (dist_associations sample_dc)) <= 1 /\
  let (r, tr) := run (cloud_env (sample_world true)) []
                   (setupCloudFrontTrigger "svelte-ssr" "7" "E1" "us-east-1") in
  r = inr tt /\
  exists dc' etag',
    lookup "E1" (w_dists (replay (sample_world true) tr)) = Some (dc', etag') /\
    filter is_origin_request (dist_associations dc') =
      [{| EventType := "origin-request"; LambdaFunctionARN := sample_arn +++ ":" +++ "7";
          IncludeBody := None |}] /\
    filter not_origin_request (dist_associations dc') =
      filter not_origin_request (dist_associations sample_dc).
Proof.
  split; [reflexivity|]; split; [reflexivity|]; split; [reflexivity|].
  split; [vm_compute; lia|].
  exact (setupCloudFrontTrigger_replaces_by_event_type (sample_world true) "svelte-ssr" "7" "E1"
           "us-east-1" sample_dc sample_dcb "ETAG1" sample_arn eq_refl eq_refl eq_refl
           ltac:(vm_compute; lia)).
Defined.

Lemma setupCloudFrontTrigger_twice_keeps_last_witness :
  lookup "E1" (w_dists (sample_world true)) = Some (sample_dc, "ETAG1") /\
  DefaultCacheBehavior_ sample_dc = Some sample_dcb /\
  lookup "svelte-ssr" (w_functions (sample_world true)) = Some sample_arn /\
  "7" <> "8" /\
  let (r, tr) := run (cloud_env (sample_world true)) []
                   (setupCloudFrontTrigger "svelte-ssr" "7" "E1" "us-east-1" ;;
                    setupCloudFrontTrigger "svelte-ssr" "8" "E1" "us-east-1") in
  r = inr tt /\
  exists dc' etag',
    lookup "E1" (w_dists (replay (sample_world true) tr)) = Some (dc', etag') /\
    filter is_origin_request (dist_associations dc') =
      [{| EventType := "origin-request"; LambdaFunctionARN := sample_arn +++ ":" +++ "8";
          IncludeBody := None |}].
Proof.
  split; [reflexivity|]; split; [reflexivity|]; split; [reflexivity|].
  split; [discriminate|].
  exact (setupCloudFrontTrigger_twice_keeps_last (sample_world true) "svelte-ssr" "7" "8" "E1"
           "us-east-1" sample_dc sample_dcb "ETAG1" sample_arn eq_refl eq_refl eq_refl
           ltac:(discriminate)).
Defined.

Lemma setupCloudFrontTrigger_missing_section_witness :
  cloud_env (sample_world true) (GetDistributionConfig "us-east-1" "E2") [] =
    inr {| DistributionConfig_ := Some bare_dc; ETag := Some "ETAG2" |} /\
  let (r, tr) := run (cloud_env (sample_world true)) []
                   (setupCloudFrontTrigger "svelte-ssr" "7" "E2" "us-east-1") in
  r = inl missing_config_error /\
  (exists x, tr = [] ++ [Ev (GetDistributionConfig "us-east-1" "E2")
                           (inr {| DistributionConfig_ := Some bare_dc; ETag := Some "ETAG2" |});
                         Ev (ConsoleError ("Failed to set up CloudFront trigger: "
                                           +++ missing_config_error)) x]) /\
  forallb (fun e => negb (is_update (projT1 e))) tr = forallb (fun e => negb (is_update (projT1 e))) ([] : trace) /\
  (forall w, replay w tr = replay w ([] : trace)).
Proof.
  split; [reflexivity|].
  exact (setupCloudFrontTrigger_missing_section (cloud_env (sample_world true)) [] "svelte-ssr" "7"
           "E2" "us-east-1" {| DistributionConfig_ := Some bare_dc; ETag := Some "ETAG2" |}
           eq_refl (or_intror (ex_intro _ bare_dc (conj eq_refl eq_refl)))).
Defined.

Lemma setupCloudFrontTrigger_refetches_token_witness :
  let new := snd (run (cloud_env (sample_world true)) []
                    (setupCloudFrontTrigger "svelte-ssr" "7" "E1" "us-east-1")) in
  existsb (fun e => is_update (projT1 e)) new = true /\
  exists got1 fc got2 u x rest,
    new = Ev (GetDistributionConfig "us-east-1" "E1") (inr got1)
          :: Ev (GetFunctionConfiguration "us-east-1" "svelte-ssr") (inr fc)
          :: Ev (GetDistributionConfig "us-east-1" "E1") (inr got2)
          :: Ev (UpdateDistribution "us-east-1" u) x :: rest /\
    Id u = "E1" /\ IfMatch u = ETag got2.
Proof.
  intros new; split; [vm_compute; reflexivity|].
  exact (setupCloudFrontTrigger_refetches_token (cloud_env (sample_world true)) [] "svelte-ssr" "7"
           "E1" "us-east-1" new eq_refl ltac:(vm_compute; reflexivity)).
Defined.

Lemma adapt_continues_after_archive_failure_witness :
  let new := snd (run (cloud_env (sample_world false)) []
                    (adapt_pipeline sample_mime "node_modules/adapter" sample_config sample_client)) in
  first_some archive_answer new = Some (inl "Error: EACCES") /\
  exists pre y post,
    new = pre ++ [Ev (ArchiveDirectory "build" ("build" +++ "/lambda.zip") ["lambda.zip"])
                    (inl "Error: EACCES");
                  Ev (ConsoleError ("Failed to zip directory: " +++ "Error: EACCES")) y] ++ post /\
    run (cloud_env (sample_world false)) []
        (adapt_pipeline sample_mime "node_modules/adapter" sample_config sample_client) =
      run (cloud_env (sample_world false))
        ([] ++ pre ++ [Ev (ArchiveDirectory "build" ("build" +++ "/lambda.zip") ["lambda.zip"])
                         (inl "Error: EACCES");
                       Ev (ConsoleError ("Failed to zip directory: " +++ "Error: EACCES")) y])
        (lambdaVersion <- deployLambdaFunction (functionName (lambda sample_config))
                            ("build" +++ "/lambda.zip") (lambda_region (lambda sample_config)) ;;
         after_deploy sample_config lambdaVersion) /\
    exists x, In (Ev (ReadFileSync ("build" +++ "/lambda.zip")) x) post.
Proof.
  intros new; split; [vm_compute; reflexivity|].
  exact (adapt_continues_after_archive_failure sample_mime "node_modules/adapter" sample_config
           sample_client (cloud_env (sample_world false)) [] new "Error: EACCES" eq_refl
           ltac:(vm_compute; reflexivity)).
Defined.

Lemma adapt_undefined_version_skips_binding_witness :
  let new := snd (run (no_version_env (sample_world true)) []
                    (adapt_pipeline sample_mime "node_modules/adapter" sample_config sample_client)) in
  first_some publish_answer new = Some (inr None) /\
  forallb (fun e => negb (is_bind_call (projT1 e))) new = true /\
  exists x, In (Ev DateNowISO x) new /\
    match x with
    | inr now =>
        exists y, In (Ev (CreateInvalidation "us-east-1"
                            {| DistributionId := "E1"; PathsQuantity := 1; PathsItems := ["/*"];
                               InvalidationCallerReference := now |}) y) new
    | inl _ => True
    end.
Proof.
  intros new; split; [vm_compute; reflexivity|].
  exact (adapt_undefined_version_skips_binding sample_mime "node_modules/adapter" sample_config
           sample_client (no_version_env (sample_world true)) [] new eq_refl
           ltac:(vm_compute; reflexivity)).
Defined.

Lemma uploadToS3_puts_witness :
  forallb dir_names_nonempty sample_client = true /\
  put_requests (snd (run (cloud_env (sample_world true)) []
                  (uploadToS3 sample_mime "out/client" sample_client "my-site" "assets" "eu-west-1"))) =
  put_requests [] ++
  map (fun pk => ("eu-west-1",
                  {| Bucket := "my-site"; Key := s3_key_prefix "assets" +++ snd pk;
                     Body := path_join "out/client" (fst pk);
                     ContentType := match sample_mime (path_join "out/client" (fst pk)) with
                                    | Some t => t | None => "application/octet-stream" end |}))
      (flat_map tree_files sample_client).
Proof.
  split; [reflexivity|].
  apply uploadToS3_puts; reflexivity.
Defined.

Lemma zipDirectory_outcome_witness :
  no_slash "lambda.zip" = true /\ "lambda.zip" <> "" /\
  exists new,
    snd (run (cloud_env (sample_world true)) [] (zipDirectory "build" ("build" +++ "/" +++ "lambda.zip"))) =
      [] ++ new /\
    exists x, calls new = [Ev (ArchiveDirectory "build" ("build" +++ "/" +++ "lambda.zip") ["lambda.zip"]) x] /\
              fst (run (cloud_env (sample_world true)) []
                     (zipDirectory "build" ("build" +++ "/" +++ "lambda.zip"))) = x.
Proof.
  split; [reflexivity|]; split; [discriminate|].
  apply zipDirectory_outcome; [reflexivity|discriminate].
Defined.

Lemma deepMerge_keeps_absent_keys_witness :
  0 < length sample_heap /\ ~ In "b" (obj_keys sample_heap 1) /\
  get_prop (merge_heap (deepMerge 10 sample_heap (JRef 0) (JRef 1))) 0 "b" =
    get_prop sample_heap 0 "b".
Proof.
  split; [simpl; lia|]; split; [vm_compute; intros [H|[H|[]]]; discriminate|].
  apply deepMerge_keeps_absent_keys; [simpl; lia|vm_compute; intros [H|[H|[]]]; discriminate].
Defined.

Lemma deepMerge_key_rule_witness :
  0 < length sample_heap /\ 1 < length sample_heap /\ 0 <> 1 /\
  NoDup (obj_keys sample_heap 1) /\ In "c" (obj_keys sample_heap 1) /\
  forallb (fun key => negb (inherited_key key)) (obj_keys sample_heap 1) = true /\
  match deepMerge (S 9) sample_heap (JRef 0) (JRef 1) with
  | MOk h' _ =>
      if isObject (get_prop sample_heap 0 "c") && isObject (get_prop sample_heap 1 "c")
      then exists l, get_prop h' 0 "c" = JRef l /\ length sample_heap <= l
      else get_prop h' 0 "c" =
             if truthy (get_prop sample_heap 1 "c") then get_prop sample_heap 1 "c"
             else get_prop sample_heap 0 "c"
  | MThrow _ _ => True
  end.
Proof.
  assert (Hnd : NoDup (obj_keys sample_heap 1)).
  { vm_compute; constructor; [intros [H|[]]; discriminate|constructor; [intros []|constructor]]. }
  assert (Hin : In "c" (obj_keys sample_heap 1)) by (vm_compute; right; left; reflexivity).
  split; [simpl; lia|]; split; [simpl; lia|]; split; [lia|]; split; [exact Hnd|]; split; [exact Hin|].
  split; [vm_compute; reflexivity|].
  apply (deepMerge_key_rule 9 sample_heap 0 1 "c");
    [simpl; lia|simpl; lia|lia|exact Hnd|exact Hin|vm_compute; reflexivity].
Defined.

Lemma adapt_rejects_non_object_witness :
  (isObject (snd module_init) = false \/ isObject JUndef = false) /\
  fst (adapt sample_mime "node_modules/adapter" (fst module_init) (snd module_init) JUndef
         sample_client) = fst module_init /\
  run (cloud_env (sample_world true)) []
      (snd (adapt sample_mime "node_modules/adapter" (fst module_init) (snd module_init) JUndef
              sample_client)) =
    (inl invalid_arguments_error,
     [] ++ [Ev (ConsoleLog "Building...") (cloud_env (sample_world true) (ConsoleLog "Building...") [])]).
Proof.
  split; [right; reflexivity|].
  apply adapt_rejects_non_object; right; reflexivity.
Defined.

Lemma adapt_rejects_unless_published_witness :
  let new := snd (run (publish_denied_env (sample_world true)) []
                    (adapt_pipeline sample_mime "node_modules/adapter" sample_config sample_client)) in
  (forall v, first_some publish_answer new <> Some (inr v)) /\
  (exists e, fst (run (publish_denied_env (sample_world true)) []
                    (adapt_pipeline sample_mime "node_modules/adapter" sample_config sample_client)) =
             inl e) /\
  forallb (fun e => negb (is_after_deploy_call (projT1 e))) new = true.
Proof.
  intros new; split; [vm_compute; intros v H; discriminate|].
  exact (adapt_rejects_unless_published sample_mime "node_modules/adapter" sample_config
           sample_client (publish_denied_env (sample_world true)) [] new eq_refl
           ltac:(vm_compute; intros v H; discriminate)).
Defined.

Lemma adapt_invalidates_only_after_binding_witness :
  let new := snd (run (cloud_env (sample_world true)) []
                    (adapt_pipeline sample_mime "node_modules/adapter" sample_config sample_client)) in
  In (Ev DateNowISO (inr "2026-10-18T00:00:00.000Z")) new /\
  (first_some publish_answer new = Some (inr None) \/
   exists u y, In (Ev (UpdateDistribution "us-east-1" u) (inr y)) new /\ Id u = "E1").
Proof.
  intros new; split; [vm_compute; repeat (first [left; reflexivity | right])|].
  exact (adapt_invalidates_only_after_binding sample_mime "node_modules/adapter" sample_config
           sample_client (cloud_env (sample_world true)) [] new (inr "2026-10-18T00:00:00.000Z")
           eq_refl ltac:(vm_compute; repeat (first [left; reflexivity | right]))).
Defined.
